(** * Run and Choose: the game session of [game.js]

    A shallow embedding of the [Game] class of [src/game.js] (the level
    table, [startLevel], [randomizeChoices], [spawnMonster], [update]) and
    of the input handlers that drive it, followed by the properties of the
    session state machine.

    Conventions of the embedding.
    - JavaScript numbers that hold coordinates, times and speeds are exact
      rationals ([Q]); the counters ([hearts], [monstersSpawned], ...) and
      the spawn interval, which only ever hold integers, are [Z]; a level
      index is a [nat] because it indexes [LEVELS].
    - [Math.random()] is an input: each operation that draws a number takes
      it as an argument, in the order of the draws in the source.
    - The canvas is a global that the resize listener overwrites; it is a
      component of the [World].
    - A [TypeError] (reading a property of [undefined]) is [None].
    - Images and drawing are left out: [draw] mutates nothing.

    The file has three parts: the definitions (the embedding, then the
    notions that the statements use and a few sample sessions), the
    lemmas about the loops, the frame and the session invariant, and the
    claims. *)

From Stdlib Require Import ZArith QArith Bool Lia Lqa String.
From stdpp Require Import base list strings gmap pretty.

Local Open Scope Z_scope.

(** ** Numbers *)

(** [a < b] on JavaScript numbers, as a boolean. *)
Definition Qlt_bool (a b : Q) : bool := negb (Qle_bool b a).

(** Rational arithmetic is computed by [vm_compute] on closed terms only. *)
#[local] Arguments Qle_bool : simpl never.
#[local] Arguments Qlt_bool : simpl never.
#[local] Arguments Qplus : simpl never.
#[local] Arguments Qminus : simpl never.
#[local] Arguments Qmult : simpl never.
#[local] Arguments Qopp : simpl never.
#[local] Arguments Qdiv : simpl never.
#[local] Arguments inject_Z : simpl never.

(** ** Data model *)

Inductive Weapon := sword | magic.
Inductive MonsterType := beast | ghost.
Inductive GameState := intro | choice | playing | levelEnd | gameOver.

Definition Weapon_eqb (a b : Weapon) : bool :=
  match a, b with
  | sword, sword | magic, magic => true
  | _, _ => false
  end.

Definition MonsterType_eqb (a b : MonsterType) : bool :=
  match a, b with
  | beast, beast | ghost, ghost => true
  | _, _ => false
  end.

Definition GameState_eqb (a b : GameState) : bool :=
  match a, b with
  | intro, intro | choice, choice | playing, playing
  | levelEnd, levelEnd | gameOver, gameOver => true
  | _, _ => false
  end.


(** The canvas: [canvas.width], [canvas.height]. *)
Record Canvas := mkCanvas { cwidth : Q; cheight : Q }.

(** One entry of [LEVELS]. *)
Record Level := mkLevel { monsterCount : Z; speed : Q }.

Definition LEVELS : list Level :=
  [ mkLevel 5 2.0; mkLevel 8 2.2; mkLevel 10 2.5; mkLevel 12 2.8;
    mkLevel 14 3.1; mkLevel 16 3.4; mkLevel 18 3.7; mkLevel 20 4.0;
    mkLevel 22 4.3; mkLevel 25 4.6 ].

(** A bounding box, the result of [getBounds]. *)
Record Bounds := mkBounds { bx : Q; by_ : Q; bw : Q; bh : Q }.

Module Hero.
Record t := mk { x : Q; y : Q; width : Q; height : Q; weapon : Weapon }.

(** [constructor(img)] *)
Definition new : t := mk 0 0 80 80 sword.

(** [resetPosition()] *)
Definition resetPosition (cv : Canvas) (h : t) : t :=
  let width' := (cheight cv * 0.15)%Q in
  let height' := width' in
  let x' := (cwidth cv * 0.1)%Q in
  let y' := (cheight cv - height' - cheight cv * 0.1)%Q in
  mk x' y' width' height' (weapon h).

Definition set_weapon (w : Weapon) (h : t) : t :=
  mk (x h) (y h) (width h) (height h) w.

(** [getBounds()] *)
Definition getBounds (h : t) : Bounds := mkBounds (x h) (y h) (width h) (height h).
End Hero.

Module Monster.
Record t := mk {
  type : MonsterType;
  x : Q;
  speed : Q;
  width : Q;
  height : Q;
  y : Q;
  required : Weapon
}.

(** [constructor(type, img)]; [r] is the [Math.random()] draw. *)
Definition new (cv : Canvas) (ty : MonsterType) (r : Q) : t :=
  let x' := (cwidth cv + r * cwidth cv * 0.5)%Q in
  let width' := (cheight cv * 0.12)%Q in
  let height' := width' in
  let y' := (cheight cv - height' - cheight cv * 0.1)%Q in
  mk ty x' 0 width' height' y'
     (if MonsterType_eqb ty beast then sword else magic).

(** [update(dt, baseSpeed)] *)
Definition update (dt baseSpeed : Q) (m : t) : t :=
  mk (type m) (x m - baseSpeed * dt)%Q (speed m) (width m) (height m) (y m)
     (required m).

(** [offscreen()] *)
Definition offscreen (m : t) : bool := Qlt_bool (x m + width m) 0.

(** [getBounds()] *)
Definition getBounds (m : t) : Bounds := mkBounds (x m) (y m) (width m) (height m).
End Monster.

(** The fields of a [Game] object ([images] apart). [damageFlash] is
    [undefined] until the first damage: [None]. *)
Record Game := mkGame {
  levelIndex : nat;
  monsters : list Monster.t;
  spawnTimer : Q;
  spawnInterval : Z;
  monstersSpawned : Z;
  monstersDefeated : Z;
  monstersToSpawn : Z;
  nextChoiceAt : Z;
  hearts : Z;
  hero : Hero.t;
  bgX : Q;
  gameState : GameState;
  choiceActive : bool;
  leftOption : Weapon;
  rightOption : Weapon;
  damageFlash : option Q
}.

(** Field assignments. *)
Definition set_monsters v g :=
  mkGame (levelIndex g) v (spawnTimer g) (spawnInterval g) (monstersSpawned g)
    (monstersDefeated g) (monstersToSpawn g) (nextChoiceAt g) (hearts g) (hero g)
    (bgX g) (gameState g) (choiceActive g) (leftOption g) (rightOption g)
    (damageFlash g).
Definition set_spawnTimer v g :=
  mkGame (levelIndex g) (monsters g) v (spawnInterval g) (monstersSpawned g)
    (monstersDefeated g) (monstersToSpawn g) (nextChoiceAt g) (hearts g) (hero g)
    (bgX g) (gameState g) (choiceActive g) (leftOption g) (rightOption g)
    (damageFlash g).
Definition set_monstersSpawned v g :=
  mkGame (levelIndex g) (monsters g) (spawnTimer g) (spawnInterval g) v
    (monstersDefeated g) (monstersToSpawn g) (nextChoiceAt g) (hearts g) (hero g)
    (bgX g) (gameState g) (choiceActive g) (leftOption g) (rightOption g)
    (damageFlash g).
Definition set_monstersDefeated v g :=
  mkGame (levelIndex g) (monsters g) (spawnTimer g) (spawnInterval g)
    (monstersSpawned g) v (monstersToSpawn g) (nextChoiceAt g) (hearts g) (hero g)
    (bgX g) (gameState g) (choiceActive g) (leftOption g) (rightOption g)
    (damageFlash g).
Definition set_nextChoiceAt v g :=
  mkGame (levelIndex g) (monsters g) (spawnTimer g) (spawnInterval g)
    (monstersSpawned g) (monstersDefeated g) (monstersToSpawn g) v (hearts g)
    (hero g) (bgX g) (gameState g) (choiceActive g) (leftOption g) (rightOption g)
    (damageFlash g).
Definition set_hearts v g :=
  mkGame (levelIndex g) (monsters g) (spawnTimer g) (spawnInterval g)
    (monstersSpawned g) (monstersDefeated g) (monstersToSpawn g) (nextChoiceAt g)
    v (hero g) (bgX g) (gameState g) (choiceActive g) (leftOption g)
    (rightOption g) (damageFlash g).
Definition set_hero v g :=
  mkGame (levelIndex g) (monsters g) (spawnTimer g) (spawnInterval g)
    (monstersSpawned g) (monstersDefeated g) (monstersToSpawn g) (nextChoiceAt g)
    (hearts g) v (bgX g) (gameState g) (choiceActive g) (leftOption g)
    (rightOption g) (damageFlash g).
Definition set_bgX v g :=
  mkGame (levelIndex g) (monsters g) (spawnTimer g) (spawnInterval g)
    (monstersSpawned g) (monstersDefeated g) (monstersToSpawn g) (nextChoiceAt g)
    (hearts g) (hero g) v (gameState g) (choiceActive g) (leftOption g)
    (rightOption g) (damageFlash g).
Definition set_gameState v g :=
  mkGame (levelIndex g) (monsters g) (spawnTimer g) (spawnInterval g)
    (monstersSpawned g) (monstersDefeated g) (monstersToSpawn g) (nextChoiceAt g)
    (hearts g) (hero g) (bgX g) v (choiceActive g) (leftOption g) (rightOption g)
    (damageFlash g).
Definition set_choiceActive v g :=
  mkGame (levelIndex g) (monsters g) (spawnTimer g) (spawnInterval g)
    (monstersSpawned g) (monstersDefeated g) (monstersToSpawn g) (nextChoiceAt g)
    (hearts g) (hero g) (bgX g) (gameState g) v (leftOption g) (rightOption g)
    (damageFlash g).
Definition set_options l r g :=
  mkGame (levelIndex g) (monsters g) (spawnTimer g) (spawnInterval g)
    (monstersSpawned g) (monstersDefeated g) (monstersToSpawn g) (nextChoiceAt g)
    (hearts g) (hero g) (bgX g) (gameState g) (choiceActive g) l r
    (damageFlash g).
Definition set_damageFlash v g :=
  mkGame (levelIndex g) (monsters g) (spawnTimer g) (spawnInterval g)
    (monstersSpawned g) (monstersDefeated g) (monstersToSpawn g) (nextChoiceAt g)
    (hearts g) (hero g) (bgX g) (gameState g) (choiceActive g) (leftOption g)
    (rightOption g) v.

(** Reads the fields of assigned records back. *)
Ltac unfold_setters :=
  cbn [set_monsters set_spawnTimer set_monstersSpawned set_monstersDefeated
       set_nextChoiceAt set_hearts set_hero set_bgX set_gameState
       set_choiceActive set_options set_damageFlash
       levelIndex monsters spawnTimer spawnInterval monstersSpawned
       monstersDefeated monstersToSpawn nextChoiceAt hearts hero bgX
       gameState choiceActive leftOption rightOption damageFlash] in *.

(** ** The [Game] class *)

(** [constructor(images)]: [levelIndex = 0], then [reset()]. *)
Definition Game_new : Game :=
  mkGame 0 [] 0 1000 0 0 0 0 3 Hero.new 0 intro false sword magic None.

(** [randomizeChoices()]; [r] is the draw. *)
Definition randomizeChoices (r : Q) (g : Game) : Game :=
  if Qlt_bool r 0.5 then set_options sword magic g
  else set_options magic sword g.

(** [startLevel(index)]; [LEVELS[index]] out of range is [undefined] and
    reading its [monsterCount] throws. *)
Definition startLevel (cv : Canvas) (r : Q) (index : nat) (g : Game) : option Game :=
  match LEVELS !! index with
  | None => None
  | Some level =>
      let toSpawn := monsterCount level in
      Some (randomizeChoices r
        (mkGame index [] 0 (Z.max 400 (1000 - Z.of_nat index * 50)) 0 0
           toSpawn (Z.min 3 toSpawn) 3
           (Hero.set_weapon sword (Hero.resetPosition cv (hero g)))
           0 choice true (leftOption g) (rightOption g) (damageFlash g)))
  end.

(** [spawnMonster()]; [r_type] and [r_x] are its two draws, in order. *)
Definition spawnMonster (cv : Canvas) (r_type r_x : Q) (g : Game) : Game :=
  let ty := if Qlt_bool r_type 0.5 then beast else ghost in
  let m := Monster.new cv ty r_x in
  let g := set_monsters (monsters g ++ [m]) g in
  set_monstersSpawned (monstersSpawned g + 1) g.

(** The inputs of one frame: the [delta] that [loop] passes to [update]
    and the draws that the frame may consume ([spawnMonster]: type, then
    position; [randomizeChoices]). *)
Record FrameInput := mkFrame { delta : Q; r_type : Q; r_x : Q; r_choice : Q }.

(** The first lines of [update]: the background scrolls in every state. *)
Definition scrollBackground (cv : Canvas) (speed delta : Q) (g : Game) : Game :=
  let g := set_bgX (bgX g - speed * delta)%Q g in
  let bgWidth := cwidth cv in
  if Qle_bool (bgX g) (- bgWidth) then set_bgX (bgX g + bgWidth)%Q g else g.

(** "Spawn monsters over time". *)
Definition spawnStep (cv : Canvas) (inp : FrameInput) (g : Game) : Game :=
  let g := set_spawnTimer (spawnTimer g + delta inp * 1000)%Q g in
  if (monstersSpawned g <? monstersToSpawn g)
     && Qle_bool (inject_Z (spawnInterval g)) (spawnTimer g)
  then spawnMonster cv (r_type inp) (r_x inp) (set_spawnTimer 0 g)
  else g.

(** "Update monsters": [for (let i = monsters.length - 1; i >= 0; i--)].
    [moveLoop n] runs the iterations [i = n-1, ..., 0]; the monster object
    is updated in place and spliced out when it is off screen. *)
Fixpoint moveLoop (n : nat) (dt speed : Q) (g : Game) : option Game :=
  match n with
  | O => Some g
  | S i =>
      match monsters g !! i with
      | None => None
      | Some m =>
          let m' := Monster.update dt speed m in
          let g := set_monsters (<[i := m']> (monsters g)) g in
          let g :=
            if Monster.offscreen m' then
              let g := set_monsters (delete i (monsters g)) g in
              set_monstersDefeated (monstersDefeated g + 1) g
            else g in
          moveLoop i dt speed g
      end
  end.

(** The overlap test of "Collision detection", on the monster's bounds
    [b] and the hero's. *)
Definition overlaps (b heroBounds : Bounds) : bool :=
  Qlt_bool (bx b) (bx heroBounds + bw heroBounds * 0.7)
  && Qlt_bool (bx heroBounds + bw heroBounds * 0.3) (bx b + bw b)
  && Qlt_bool (by_ b) (by_ heroBounds + bh heroBounds)
  && Qlt_bool (by_ heroBounds) (by_ b + bh b).

(** [this.hero.weapon === (m.type === 'beast' ? 'sword' : 'magic')] *)
Definition weaponMatches (h : Hero.t) (m : Monster.t) : bool :=
  Weapon_eqb (Hero.weapon h)
    (if MonsterType_eqb (Monster.type m) beast then sword else magic).

(** The body of the collision loop once the overlap test has passed, for
    the monster [m] at index [i]. *)
Definition resolveCollision (i : nat) (m : Monster.t) (g : Game) : Game :=
  if weaponMatches (hero g) m then
    let g := set_monsters (delete i (monsters g)) g in
    set_monstersDefeated (monstersDefeated g + 1) g
  else
    let g := set_monsters (delete i (monsters g)) g in
    let g := set_hearts (hearts g - 1) g in
    let g := set_monstersDefeated (monstersDefeated g + 1) g in
    set_damageFlash (Some 0.2%Q) g.

(** "Collision detection": iterations [i = n-1, ..., 0]. *)
Fixpoint collideLoop (n : nat) (heroBounds : Bounds) (g : Game) : option Game :=
  match n with
  | O => Some g
  | S i =>
      match monsters g !! i with
      | None => None
      | Some m =>
          let b := Monster.getBounds m in
          let g := if overlaps b heroBounds then resolveCollision i m g else g in
          collideLoop i heroBounds g
      end
  end.

(** "Damage flash timer" *)
Definition flashTimer (delta : Q) (g : Game) : Game :=
  match damageFlash g with
  | None => g
  | Some f =>
      let f' := (f - delta)%Q in
      if Qle_bool f' 0 then set_damageFlash None g
      else set_damageFlash (Some f') g
  end.

(** "Check for next choice" *)
Definition checkChoice (r : Q) (g : Game) : Game :=
  if negb (choiceActive g)
     && (monstersDefeated g >=? nextChoiceAt g)
     && (monstersDefeated g <? monstersToSpawn g)
  then
    let g := set_choiceActive true g in
    let g := set_gameState choice g in
    let g := randomizeChoices r g in
    set_nextChoiceAt (Z.min (nextChoiceAt g + 3) (monstersToSpawn g)) g
  else g.

(** "Check for game over" *)
Definition checkGameOver (g : Game) : Game :=
  if hearts g <=? 0 then set_gameState gameOver g else g.

(** "Check for level completion" *)
Definition checkLevelEnd (g : Game) : Game :=
  if (monstersDefeated g >=? monstersToSpawn g)
     && (length (monsters g) =? 0)%nat
  then set_gameState levelEnd g else g.

(** The body of [if (this.gameState === 'playing')]. *)
Definition playingStep (cv : Canvas) (speed : Q) (inp : FrameInput) (g : Game)
  : option Game :=
  let g := spawnStep cv inp g in
  g ← moveLoop (length (monsters g)) (delta inp * 100)%Q speed g;
  let heroBounds := Hero.getBounds (hero g) in
  g ← collideLoop (length (monsters g)) heroBounds g;
  let g := flashTimer (delta inp) g in
  let g := checkChoice (r_choice inp) g in
  let g := checkGameOver g in
  let g := checkLevelEnd g in
  Some g.

(** [update(delta)] *)
Definition update (cv : Canvas) (inp : FrameInput) (g : Game) : option Game :=
  match LEVELS !! levelIndex g with
  | None => None
  | Some level =>
      let speed := speed level in
      let g := scrollBackground cv speed (delta inp) g in
      if GameState_eqb (gameState g) playing then playingStep cv speed inp g
      else Some g
  end.

(** ** Input handlers and the session *)

(** [handleChoiceSelection(choice)]; [left] tells which side was picked. *)
Definition handleChoiceSelection (left : bool) (g : Game) : Game :=
  if negb (GameState_eqb (gameState g) choice) then g
  else
    let selected := if left then leftOption g else rightOption g in
    let g := set_hero (Hero.set_weapon selected (hero g)) g in
    let g := set_choiceActive false g in
    set_gameState playing g.

(** The level that follows the current one: the next, or 0 after the last. *)
Definition advanceLevel (cv : Canvas) (r : Q) (g : Game) : option Game :=
  if (levelIndex g <? length LEVELS - 1)%nat
  then startLevel cv r (levelIndex g + 1) g
  else startLevel cv r 0 g.

(** The [pointerdown] listener; [x] is the pointer's offset in the canvas. *)
Definition onPointerDown (cv : Canvas) (x r : Q) (g : Game) : option Game :=
  match gameState g with
  | choice => Some (handleChoiceSelection (Qlt_bool x (cwidth cv / 2)) g)
  | levelEnd => advanceLevel cv r g
  | gameOver => startLevel cv r 0 g
  | _ => Some g
  end.

(** The [keydown] listener. *)
Definition onKeyDown (cv : Canvas) (key : string) (r : Q) (g : Game) : option Game :=
  match gameState g with
  | choice =>
      if String.eqb key "ArrowLeft" || String.eqb key "a"
      then Some (handleChoiceSelection true g)
      else if String.eqb key "ArrowRight" || String.eqb key "d"
      then Some (handleChoiceSelection false g)
      else Some g
  | levelEnd =>
      if String.eqb key " " || String.eqb key "Enter"
      then advanceLevel cv r g else Some g
  | gameOver =>
      if String.eqb key " " || String.eqb key "Enter"
      then startLevel cv r 0 g else Some g
  | _ => Some g
  end.

(** What can happen to a running session. The draw [r] of an input event
    is the one [randomizeChoices] consumes when the event starts a level. *)
Inductive Event :=
| Frame (inp : FrameInput)
| PointerDown (x r : Q)
| KeyDown (key : string) (r : Q)
| Resize (w h : Q).

Record World := mkWorld { canvas : Canvas; game : Game }.

Definition step (ev : Event) (w : World) : option World :=
  match ev with
  | Frame inp => g ← update (canvas w) inp (game w); Some (mkWorld (canvas w) g)
  | PointerDown x r =>
      g ← onPointerDown (canvas w) x r (game w); Some (mkWorld (canvas w) g)
  | KeyDown key r =>
      g ← onKeyDown (canvas w) key r (game w); Some (mkWorld (canvas w) g)
  | Resize w' h' => Some (mkWorld (mkCanvas w' h') (game w))
  end.

Fixpoint run (evs : list Event) (w : World) : option World :=
  match evs with
  | [] => Some w
  | ev :: evs => w ← step ev w; run evs w
  end.

(** The session once the images are loaded: [new Game(images)], then
    [startLevel(0)]. *)
Definition boot (cv : Canvas) (r : Q) : option World :=
  g ← startLevel cv r 0 Game_new; Some (mkWorld cv g).

(** Inputs the browser can deliver: a draw of [Math.random()] lies in
    [0, 1), frame times do not run backwards, the canvas is not empty. *)
Definition draw_ok (r : Q) : Prop := (0 <= r /\ r < 1)%Q.
Definition canvas_ok (cv : Canvas) : Prop := (0 < cwidth cv /\ 0 < cheight cv)%Q.
Definition frame_ok (inp : FrameInput) : Prop :=
  (0 <= delta inp)%Q /\ draw_ok (r_type inp) /\ draw_ok (r_x inp)
  /\ draw_ok (r_choice inp).
Definition event_ok (ev : Event) : Prop :=
  match ev with
  | Frame inp => frame_ok inp
  | PointerDown _ r => draw_ok r
  | KeyDown _ r => draw_ok r
  | Resize w h => canvas_ok (mkCanvas w h)
  end.

(** The states a session can be in. *)
Inductive reachable : World -> Prop :=
| reach_boot cv r w :
    canvas_ok cv -> draw_ok r -> boot cv r = Some w -> reachable w
| reach_step ev w w' :
    reachable w -> event_ok ev -> step ev w = Some w' -> reachable w'.

(** ** Derived notions used by the statements *)

(** Number of elements of [l] that satisfy [p]. *)
Definition countb {A} (p : A -> bool) (l : list A) : Z :=
  Z.of_nat (length (List.filter p l)).

Definition onscreen (m : Monster.t) : bool := negb (Monster.offscreen m).

(** The monster's box overlaps the hero's hit box. *)
Definition hits (hb : Bounds) (m : Monster.t) : bool :=
  overlaps (Monster.getBounds m) hb.

(** A collision that costs a heart. *)
Definition hurts (h : Hero.t) (hb : Bounds) (m : Monster.t) : bool :=
  hits hb m && negb (weaponMatches h m).

(** The monster stays clear of the hit box [hb]. *)
Definition misses (hb : Bounds) (m : Monster.t) : bool := negb (hits hb m).

(** The state after the collision loop has gone through [pre], the
    monsters in front of the untouched suffix [suf]. *)
Definition collided (hb : Bounds) (pre suf : list Monster.t) (g : Game) : Game :=
  set_damageFlash
    (if existsb (hurts (hero g) hb) pre then Some 0.2%Q else damageFlash g)
    (set_monstersDefeated (monstersDefeated g + countb (hits hb) pre)
       (set_hearts (hearts g - countb (hurts (hero g) hb) pre)
          (set_monsters (List.filter (misses hb) pre ++ suf) g))).

(** ** One frame in the [playing] state, stage by stage *)

Section FrameStages.
Variables (cv : Canvas) (lv : Level) (inp : FrameInput) (g : Game).

(** The session after the scroll and the spawn. *)
Definition afterSpawn : Game :=
  spawnStep cv inp (scrollBackground cv (speed lv) (delta inp) g).

(** Every monster of the frame, moved. *)
Definition movedMonsters : list Monster.t :=
  map (Monster.update (delta inp * 100) (speed lv)) (monsters afterSpawn).

(** Those that are still on screen: the list after the move loop. *)
Definition onscreenMonsters : list Monster.t :=
  List.filter onscreen movedMonsters.

Definition afterMove : Game :=
  set_monstersDefeated
    (monstersDefeated afterSpawn + countb Monster.offscreen movedMonsters)
    (set_monsters onscreenMonsters afterSpawn).

Definition heroBox : Bounds := Hero.getBounds (hero g).

Definition afterCollide : Game := collided heroBox onscreenMonsters [] afterMove.

Definition afterChecks : Game :=
  checkLevelEnd
    (checkGameOver
       (checkChoice (r_choice inp) (flashTimer (delta inp) afterCollide))).

End FrameStages.

(** ** The end of a frame *)

(** The condition of "Check for next choice". *)
Definition choiceDue (g : Game) : bool :=
  negb (choiceActive g)
  && (monstersDefeated g >=? nextChoiceAt g)
  && (monstersDefeated g <? monstersToSpawn g).

(** The condition of "Check for level completion". *)
Definition levelDone (g : Game) : bool :=
  (monstersDefeated g >=? monstersToSpawn g) && (length (monsters g) =? 0)%nat.

(** Two sessions agree on everything but the state-machine fields
    ([gameState], [choiceActive], the options, [nextChoiceAt]) and the
    damage flash. *)
Definition sameCore (g1 g2 : Game) : Prop :=
  levelIndex g1 = levelIndex g2 /\ monsters g1 = monsters g2
  /\ spawnTimer g1 = spawnTimer g2 /\ spawnInterval g1 = spawnInterval g2
  /\ monstersSpawned g1 = monstersSpawned g2
  /\ monstersDefeated g1 = monstersDefeated g2
  /\ monstersToSpawn g1 = monstersToSpawn g2
  /\ hearts g1 = hearts g2 /\ hero g1 = hero g2 /\ bgX g1 = bgX g2.

(** ** The session invariant *)

(** [required] is the weapon that the collision test recomputes from the
    monster's type. *)
Definition wellFormed (m : Monster.t) : Prop :=
  Monster.required m = (if MonsterType_eqb (Monster.type m) beast then sword else magic).


Record Inv (g : Game) : Prop := mkInv {
  inv_level :
    exists lv, LEVELS !! levelIndex g = Some lv /\ monstersToSpawn g = monsterCount lv;
  inv_interval :
    spawnInterval g = Z.max 400 (1000 - Z.of_nat (levelIndex g) * 50);
  inv_count :
    monstersDefeated g + Z.of_nat (length (monsters g)) = monstersSpawned g;
  inv_spawned : monstersSpawned g <= monstersToSpawn g;
  inv_defeated : 0 <= monstersDefeated g;
  inv_hearts_max : hearts g <= 3;
  inv_hearts_lost : 3 - monstersDefeated g <= hearts g;
  inv_alive : gameState g = choice \/ gameState g = playing -> 1 <= hearts g;
  inv_state : gameState g <> intro;
  inv_choice : gameState g = playing -> choiceActive g = false;
  inv_required : Forall wellFormed (monsters g)
}.

(** ** Checking a concrete session *)

Definition draw_okb (r : Q) : bool := Qle_bool 0 r && Qlt_bool r 1.
Definition canvas_okb (cv : Canvas) : bool :=
  Qlt_bool 0 (cwidth cv) && Qlt_bool 0 (cheight cv).
Definition frame_okb (inp : FrameInput) : bool :=
  Qle_bool 0 (delta inp) && draw_okb (r_type inp) && draw_okb (r_x inp)
  && draw_okb (r_choice inp).
Definition event_okb (ev : Event) : bool :=
  match ev with
  | Frame inp => frame_okb inp
  | PointerDown _ r => draw_okb r
  | KeyDown _ r => draw_okb r
  | Resize w h => canvas_okb (mkCanvas w h)
  end.

(** The session played from the boot on canvas [cv] with the events [evs]. *)
Definition play (cv : Canvas) (r : Q) (evs : list Event) : option World :=
  w ← boot cv r; run evs w.

(** The hero's weapon is not the one the monster requires. *)
Definition mismatched (h : Hero.t) (m : Monster.t) : bool :=
  negb (Weapon_eqb (Hero.weapon h) (Monster.required m)).

(** The event makes its handler call [startLevel]. *)
Definition startsLevel (ev : Event) (w : World) : bool :=
  match ev with
  | PointerDown _ _ =>
      match gameState (game w) with
      | levelEnd | gameOver => true
      | _ => false
      end
  | KeyDown key _ =>
      match gameState (game w) with
      | levelEnd | gameOver => String.eqb key " " || String.eqb key "Enter"
      | _ => false
      end
  | _ => false
  end.

(** [sameLevel w w']: the session gets from [w] to [w'] and no level is
    started on the way. *)
Inductive sameLevel (w : World) : World -> Prop :=
| sameLevel_refl : sameLevel w w
| sameLevel_step ev w1 w2 :
    sameLevel w w1 -> startsLevel ev w1 = false -> step ev w1 = Some w2 ->
    sameLevel w w2.

(** [run], stopping with [None] at an event that starts a level. *)
Fixpoint runLevel (evs : list Event) (w : World) : option World :=
  match evs with
  | [] => Some w
  | ev :: evs =>
      if startsLevel ev w then None else w ← step ev w; runLevel evs w
  end.

(** The world that [runLevel] ends in, [w] itself if it stops. *)
Definition resume (w : World) (evs : list Event) : World :=
  match runLevel evs w with
  | Some w' => w'
  | None => w
  end.

(** The world that [play] ends in (no handler throws on the way, see
    [play_total]). *)
Definition session (cv : Canvas) (r : Q) (evs : list Event) : World :=
  match play cv r evs with
  | Some w => w
  | None => mkWorld cv Game_new
  end.

(** What a frame finds and what it leaves: state, hearts, defeats,
    choice threshold, pending choice and quota, before and after. *)
Definition frameReport (inp : FrameInput) (w : World)
  : option ((GameState * Z * Z * Z * bool * Z)
            * (GameState * Z * Z * Z * bool * Z)) :=
  let report g :=
    (gameState g, hearts g, monstersDefeated g, nextChoiceAt g, choiceActive g,
     monstersToSpawn g) in
  g' ← update (canvas w) inp (game w);
  Some (report (game w), report g').

(** ** Sample sessions

    A 1600 x 800 canvas; frames at 32 per second, so that every number of
    the session is a dyadic rational; the first draw puts the sword on the
    left, and the player taps the left half. At level 0 a monster spawns
    every 32 frames and walks 6.25 pixels per frame. *)

Definition demoCanvas : Canvas := mkCanvas 1600 800.

(** A frame of 1/32 s whose spawn, if any, draws [rt] for the type and
    [rx] for the position. *)
Definition tick (rt rx : Q) : FrameInput := mkFrame (1 # 32) rt rx 0.25.

Definition pickLeft : Event := PointerDown 100 0.25.

(** Draws below and above 1/2: a beast, a ghost. *)
Definition beastDraw : Q := 0.25.
Definition ghostDraw : Q := 0.75.

(** Four ghosts, spawned one second apart and each 200 pixels closer to
    the screen than the one before: they walk as one and reach the hero,
    who holds the sword, in the same frame. *)
Definition fourGhosts : list Event :=
  [pickLeft]
  ++ replicate 32 (Frame (tick ghostDraw 0.75))
  ++ replicate 32 (Frame (tick ghostDraw 0.5))
  ++ replicate 32 (Frame (tick ghostDraw 0.25))
  ++ replicate 32 (Frame (tick ghostDraw 0))
  ++ replicate 216 (Frame (tick ghostDraw 0)).

(** Ghosts only, one per second, against the sword: the session up to the
    frame before the third ghost arrives. *)
Definition twoGhostsIn : list Event :=
  [pickLeft] ++ replicate 311 (Frame (tick ghostDraw 0)).

(** Level 0 against the sword: two ghosts, two beasts, a last ghost; the
    sword again at the second choice; up to the frame before the last
    ghost arrives. *)
Definition lastGhostAhead : list Event :=
  [pickLeft]
  ++ replicate 64 (Frame (tick ghostDraw 0))
  ++ replicate 64 (Frame (tick beastDraw 0))
  ++ replicate 184 (Frame (tick ghostDraw 0))
  ++ [pickLeft]
  ++ replicate 63 (Frame (tick ghostDraw 0)).

(** One-second frames: a ghost spawns in each of the first five, and the
    first ghost is one frame away from the hero after the sixth. *)
Definition slowTick : FrameInput := mkFrame 1 ghostDraw 0 0.25.
Definition ghostAhead : list Event := [pickLeft] ++ replicate 6 (Frame slowTick).

(** The same with beasts, which the sword defeats. *)
Definition slowBeast : FrameInput := mkFrame 1 beastDraw 0 0.25.

(** One-second frames whose ghosts spawn 100 pixels further out: they
    step over the hero's hit box and leave the screen. *)
Definition dodgeTick : FrameInput := mkFrame 1 ghostDraw 0.125 0.25.

(** The session right after the boot, in [choice] at level 0. *)
Definition bootWorld : World := session demoCanvas 0.25 [].

(** Eight one-second frames after the first choice: of ghosts that dodge
    the hero (the first leaves the screen in the next frame), of ghosts
    against the sword (two have cost a heart each, the third arrives in
    the next frame), of beasts against the sword (likewise, defeated). *)
Definition dodgeAhead : list Event := [pickLeft] ++ replicate 8 (Frame dodgeTick).
Definition thirdGhostAhead : list Event := [pickLeft] ++ replicate 8 (Frame slowTick).
Definition thirdBeastAhead : list Event := [pickLeft] ++ replicate 8 (Frame slowBeast).

(** After [ghostAhead], a frame of 3/4 s and a frame of 1/8 s: the first
    ghost hits the hero in the last one, which leaves the flash running. *)
Definition flashRunning : list Event :=
  ghostAhead ++ [Frame (mkFrame 0.75 ghostDraw 0 0.25);
                 Frame (mkFrame 0.125 ghostDraw 0 0.25)].

(** Level 0 won with the sword against five beasts: one-second frames,
    the sword again at the choice after the third beast. *)
Definition levelWon : list Event :=
  thirdBeastAhead ++ [Frame slowBeast; pickLeft]
  ++ replicate 2 (Frame slowBeast).

(** Sessions for the flash: [fatalFlash] ends in [gameOver] with the
    flash armed by the third ghost still running. *)
Definition fatalFlash : list Event :=
  thirdGhostAhead ++ [Frame (mkFrame 0.75 ghostDraw 0 0.25);
                      Frame (mkFrame 0.125 ghostDraw 0 0.25)].

(** ** What [draw] shows

    [draw] mutates nothing. These are the values it puts on the canvas,
    not the pixels. *)

(** The three heart icons, left to right: [true] is a red heart, [false]
    a grey one. *)
Definition drawHearts (g : Game) : list bool :=
  map (fun i => i <? hearts g) [0; 1; 2].

(** The number after "Remaining: ". *)
Definition drawRemaining (g : Game) : Z :=
  Z.max 0 (monstersToSpawn g - monstersDefeated g).

(** The label in the corner. *)
Definition drawLevelLabel (g : Game) : string :=
  "Level " +:+ pretty (levelIndex g + 1)%nat.

(** The banner of the end overlay, message and hint, drawn in [levelEnd]
    and [gameOver]. *)
Definition drawBanner (g : Game) : option (string * string) :=
  match gameState g with
  | gameOver => Some ("Game Over", "Tap to restart")
  | levelEnd =>
      if (levelIndex g =? length LEVELS - 1)%nat
      then Some ("You Win!", "Tap to play again")
      else Some ("Level " +:+ pretty (levelIndex g + 1)%nat +:+ " Complete",
                 "Tap to continue")
  | _ => None
  end.

(** [Math.min] *)
Definition minQ (a b : Q) : Q := if Qlt_bool b a then b else a.

(** An option box of the choice overlay: a square at [(boxX, boxY)]
    with the icon of [boxLabel]. *)
Record OptionBox := mkBox { boxX : Q; boxY : Q; boxSize : Q; boxLabel : Weapon }.

(** The two boxes of the choice overlay, left and right, drawn in
    [choice]. *)
Definition drawOptionBoxes (cv : Canvas) (g : Game) : option (OptionBox * OptionBox) :=
  match gameState g with
  | choice =>
      let size := (minQ (cwidth cv) (cheight cv) * 0.25)%Q in
      let gap := (cwidth cv * 0.05)%Q in
      let leftX := (cwidth cv / 2 - gap / 2 - size)%Q in
      let rightX := (cwidth cv / 2 + gap / 2)%Q in
      let y := (cheight cv * 0.4)%Q in
      Some (mkBox leftX y size (leftOption g), mkBox rightX y size (rightOption g))
  | _ => None
  end.

(** ** The animation loop *)

(** The first lines of [loop(timestamp)]: the [delta] passed to [update]
    and the new [lastTimestamp]. [lastTimestamp] is [undefined] before
    the first frame, and [!lastTimestamp] also holds when it is 0. *)
Definition loopDelta (lastTimestamp : option Q) (timestamp : Q) : Q * Q :=
  let last :=
    match lastTimestamp with
    | None => timestamp
    | Some l => if Qeq_bool l 0 then timestamp else l
    end in
  ((timestamp - last) / 1000, timestamp)%Q.

(** The deltas of the frames at the timestamps [ts]. *)
Fixpoint loopDeltas (lastTimestamp : option Q) (ts : list Q) : list Q :=
  match ts with
  | [] => []
  | t :: ts =>
      let '(delta, last) := loopDelta lastTimestamp t in
      delta :: loopDeltas (Some last) ts
  end.

(** Timestamps that do not run backwards, from [t] on. *)
Fixpoint nondecreasing (t : Q) (ts : list Q) : Prop :=
  match ts with
  | [] => True
  | t' :: ts => (t <= t')%Q /\ nondecreasing t' ts
  end.

Definition sumQ (l : list Q) : Q := foldr Qplus 0%Q l.

(** ** [loadImages]

    The promise of [loadImages(assetList)], as the state that its
    callbacks share: the [images] object, the counter [loaded], and
    whether [resolve] has been called. The promise resolves with the
    [images] object itself. *)
Module Loader.

(** An [Image] whose load has ended: its [src], and whether it ended in
    [load] rather than [error]. *)
Record Image := mkImage { src : string; hasLoaded : bool }.

Record State := mkState {
  images : gmap string Image;
  loaded : nat;
  resolved : bool
}.

(** The state when [loadImages] returns: no callback has run yet. *)
Definition start : State := mkState ∅ 0 false.

(** [keys.length] *)
Definition total (assetList : gmap string string) : nat := size assetList.

(** The handler [img.onload = img.onerror] of the image created for
    [key]; [ok] tells which of the two events fired, the handler does not
    look. No image, and so no handler, exists for a key that is not in
    [assetList]. *)
Definition onSettled (assetList : gmap string string) (key : string) (ok : bool)
    (st : State) : State :=
  match assetList !! key with
  | None => st
  | Some url =>
      let images' := <[key := mkImage url ok]> (images st) in
      let loaded' := S (loaded st) in
      mkState images' loaded' (resolved st || (loaded' =? total assetList)%nat)
  end.

(** The callbacks [evs], in the order in which they fire. *)
Definition run (assetList : gmap string string) (evs : list (string * bool))
    (st : State) : State :=
  foldl (fun st e => onSettled assetList e.1 e.2 st) st evs.

End Loader.

(** ** The service worker

    The handlers of [service-worker.js] over the part of the browser that
    they use: a response is its [ok] flag and a body; a cache maps a
    request, identified with its URL, to a response; the cache storage
    lists the caches by name, in the order of their creation, which is
    the order in which [caches.match] searches them; the network answers
    a request with a response or fails. *)
Module ServiceWorker.

Definition CACHE_NAME : string := "run-choose-root-cache-v1".

Definition FILES_TO_CACHE : list string :=
  [ "/"; "/index.html"; "/game.js"; "/manifest.json"; "/service-worker.js";
    "/hero.png"; "/sword.png"; "/wand.png"; "/monster1.png"; "/monster2.png";
    "/background.png" ].

Record Response := mkResponse { ok : bool; body : string }.

Abbreviation Cache := (gmap string Response).
Abbreviation CacheStorage := (list (string * gmap string Response)).

(** [fetch(url)]: [None] when the promise rejects. *)
Definition Network : Type := string -> option Response.

(** [caches.open(name)]: the cache is created, empty, if there is none
    of that name. *)
Definition caches_open (name : string) (cs : CacheStorage) : CacheStorage :=
  if decide (name ∈ cs.*1) then cs else cs ++ [(name, ∅)].

(** The fetches of [cache.addAll(urls)]: all of them must answer with an
    [ok] response, or [addAll] rejects and stores nothing. *)
Definition fetchAll (net : Network) (urls : list string)
  : option (list (string * Response)) :=
  mapM (fun url => r ← net url; if ok r then Some (url, r) else None) urls.

(** The entries put into the cache called [name]; they replace the
    entries of the same URL. *)
Definition putAll (name : string) (entries : list (string * Response))
    (cs : CacheStorage) : CacheStorage :=
  map (fun p => if decide (p.1 = name)
                then (p.1, list_to_map entries ∪ p.2) else p) cs.

(** [caches.delete(name)] *)
Definition caches_delete (name : string) (cs : CacheStorage) : CacheStorage :=
  filter (fun p => p.1 <> name) cs.

(** [caches.match(request)]: the first match, in the order of the
    caches. *)
Fixpoint caches_match (url : string) (cs : CacheStorage) : option Response :=
  match cs with
  | [] => None
  | (_, c) :: cs =>
      match c !! url with
      | Some r => Some r
      | None => caches_match url cs
      end
  end.

(** The [install] listener; the flag tells whether the promise given to
    [waitUntil] is fulfilled. *)
Definition install (net : Network) (cs : CacheStorage) : CacheStorage * bool :=
  let cs := caches_open CACHE_NAME cs in
  match fetchAll net FILES_TO_CACHE with
  | Some entries => (putAll CACHE_NAME entries cs, true)
  | None => (cs, false)
  end.

(** The [activate] listener: for every name of [caches.keys()] other
    than [CACHE_NAME], [caches.delete]. *)
Definition activate (cs : CacheStorage) : CacheStorage :=
  foldl (fun acc name =>
           if decide (name <> CACHE_NAME) then caches_delete name acc else acc)
        cs (cs.*1).

(** The [fetch] listener: [response || fetch(event.request)]. *)
Definition onFetch (net : Network) (url : string) (cs : CacheStorage)
  : option Response :=
  match caches_match url cs with
  | Some r => Some r
  | None => net url
  end.

End ServiceWorker.

(** ** More of the session invariant

    What else every reachable session satisfies: the two options on offer
    are the two weapons, a running damage flash has between 0 and 0.2 s
    left, and the choice threshold is a multiple of 3 or the quota. *)
Record Inv2 (g : Game) : Prop := mkInv2 {
  inv2_options : leftOption g <> rightOption g;
  inv2_flash : forall f, damageFlash g = Some f -> (0 < f /\ f <= 0.2)%Q;
  inv2_next : 3 <= nextChoiceAt g <= monstersToSpawn g;
  inv2_next_step :
    nextChoiceAt g = monstersToSpawn g \/ exists k, nextChoiceAt g = 3 * k
}.

(** The keys that the [keydown] listener tests for. *)
Definition isLeftKey (key : string) : bool :=
  String.eqb key "ArrowLeft" || String.eqb key "a".
Definition isRightKey (key : string) : bool :=
  String.eqb key "ArrowRight" || String.eqb key "d".
Definition isGoKey (key : string) : bool :=
  String.eqb key " " || String.eqb key "Enter".

(** The frame is one that runs the simulation. *)
Definition isPlayingFrame (ev : Event) (w : World) : bool :=
  match ev with
  | Frame _ => GameState_eqb (gameState (game w)) playing
  | _ => false
  end.

(** * Lemmas *)

(** Two sessions with the same fields are the same session. *)
Lemma Game_ext (g1 g2 : Game) :
  levelIndex g1 = levelIndex g2 -> monsters g1 = monsters g2 ->
  spawnTimer g1 = spawnTimer g2 -> spawnInterval g1 = spawnInterval g2 ->
  monstersSpawned g1 = monstersSpawned g2 ->
  monstersDefeated g1 = monstersDefeated g2 ->
  monstersToSpawn g1 = monstersToSpawn g2 ->
  nextChoiceAt g1 = nextChoiceAt g2 -> hearts g1 = hearts g2 ->
  hero g1 = hero g2 -> bgX g1 = bgX g2 -> gameState g1 = gameState g2 ->
  choiceActive g1 = choiceActive g2 -> leftOption g1 = leftOption g2 ->
  rightOption g1 = rightOption g2 -> damageFlash g1 = damageFlash g2 ->
  g1 = g2.
Proof.
  destruct g1, g2; cbn. intros; subst; reflexivity.
Qed.

(** Closes an equation between two sessions built by assignments. *)
Ltac game_eq :=
  apply Game_ext; unfold_setters; try reflexivity; try lia.

Lemma Qlt_bool_iff (a b : Q) : Qlt_bool a b = true <-> (a < b)%Q.
Proof.
  unfold Qlt_bool. rewrite negb_true_iff.
  split.
  - intros H. apply Qnot_le_lt. intros Hle.
    apply Qle_bool_iff in Hle. congruence.
  - intros H. destruct (Qle_bool b a) eqn:E; [|reflexivity].
    apply Qle_bool_iff in E. exfalso. exact (Qlt_not_le _ _ H E).
Qed.

Lemma GameState_eqb_eq (a b : GameState) : GameState_eqb a b = true <-> a = b.
Proof. destruct a, b; simpl; split; congruence. Qed.

Lemma Weapon_eqb_eq (a b : Weapon) : Weapon_eqb a b = true <-> a = b.
Proof. destruct a, b; simpl; split; congruence. Qed.
Lemma countb_app {A} (p : A -> bool) (l1 l2 : list A) :
  countb p (l1 ++ l2) = countb p l1 + countb p l2.
Proof. unfold countb. rewrite List.filter_app, length_app. lia. Qed.

Lemma countb_nonneg {A} (p : A -> bool) (l : list A) : 0 <= countb p l.
Proof. unfold countb. lia. Qed.

Lemma countb_le_length {A} (p : A -> bool) (l : list A) :
  countb p l <= Z.of_nat (length l).
Proof.
  unfold countb. induction l as [|a l IH]; simpl; [lia|].
  destruct (p a); simpl; lia.
Qed.

Lemma countb_split {A} (p : A -> bool) (l : list A) :
  countb p l + countb (fun a => negb (p a)) l = Z.of_nat (length l).
Proof.
  unfold countb. induction l as [|a l IH]; simpl; [lia|].
  destruct (p a); simpl; lia.
Qed.

Lemma countb_mono {A} (p q : A -> bool) (l : list A) :
  (forall a, p a = true -> q a = true) -> countb p l <= countb q l.
Proof.
  intros Hpq. unfold countb. apply Nat2Z.inj_le.
  induction l as [|a l IH]; simpl; [lia|].
  destruct (p a) eqn:Ep.
  - rewrite (Hpq a Ep). simpl. lia.
  - destruct (q a); simpl; lia.
Qed.

(** Only a monster that hits the hero can hurt. *)
Lemma countb_hurts_le h hb (l : list Monster.t) :
  countb (hurts h hb) l <= countb (hits hb) l.
Proof.
  apply countb_mono. intros m. unfold hurts.
  rewrite andb_true_iff. tauto.
Qed.

(** ** What the two loops compute *)

Section Loops.
Variables (dt sp : Q).

Let mv := Monster.update dt sp.

Lemma moveLoop_app (pre suf : list Monster.t) (g : Game) :
  monsters g = pre ++ suf ->
  moveLoop (length pre) dt sp g =
    Some (set_monstersDefeated
            (monstersDefeated g + countb Monster.offscreen (map mv pre))
            (set_monsters (List.filter onscreen (map mv pre) ++ suf) g)).
Proof.
  revert suf g. induction pre as [|m pre IH] using rev_ind; intros suf g Hg.
  - cbn [length moveLoop map List.filter app]. f_equal.
    game_eq; [exact Hg|unfold countb; cbn; lia].
  - rewrite length_app, Nat.add_comm. cbn [length Nat.add moveLoop].
    rewrite <- app_assoc in Hg. cbn [app] in Hg.
    rewrite Hg, list_lookup_middle by reflexivity.
    rewrite map_app, List.filter_app, countb_app.
    cbn [map List.filter]. fold mv.
    unfold onscreen at 2. unfold countb at 2. cbn [List.filter].
    assert (Hins : <[length pre := mv m]> (pre ++ m :: suf) = pre ++ mv m :: suf).
    { rewrite insert_app_r_alt, Nat.sub_diag by reflexivity. reflexivity. }
    destruct (Monster.offscreen (mv m)) eqn:Eoff; cbn [negb length].
    + rewrite IH with (suf := suf).
      * f_equal. game_eq. rewrite app_nil_r. reflexivity.
      * unfold_setters. rewrite Hins. apply delete_middle.
    + rewrite IH with (suf := mv m :: suf).
      * f_equal. game_eq. rewrite <- app_assoc. reflexivity.
      * unfold_setters. exact Hins.
Qed.

(** The move loop is a map followed by a filter; it never throws. *)
Lemma moveLoop_spec (g : Game) :
  moveLoop (length (monsters g)) dt sp g =
    Some (set_monstersDefeated
            (monstersDefeated g + countb Monster.offscreen (map mv (monsters g)))
            (set_monsters (List.filter onscreen (map mv (monsters g))) g)).
Proof.
  rewrite (moveLoop_app (monsters g) [] g) by (rewrite app_nil_r; reflexivity).
  rewrite app_nil_r. reflexivity.
Qed.
End Loops.

Section Collisions.
Variable hb : Bounds.

Lemma collideLoop_app (pre suf : list Monster.t) (g : Game) :
  monsters g = pre ++ suf ->
  collideLoop (length pre) hb g = Some (collided hb pre suf g).
Proof.
  revert suf g. induction pre as [|m pre IH] using rev_ind; intros suf g Hg.
  - cbn [length collideLoop]. unfold collided, countb.
    cbn [existsb List.filter app length]. f_equal.
    game_eq. exact Hg.
  - rewrite length_app, Nat.add_comm. cbn [length Nat.add collideLoop].
    rewrite <- app_assoc in Hg. cbn [app] in Hg.
    rewrite Hg, list_lookup_middle by reflexivity.
    unfold collided.
    rewrite existsb_app, List.filter_app, !countb_app.
    cbn [existsb List.filter].
    unfold misses at 2. unfold hurts at 2 4. unfold countb at 2 4.
    cbn [List.filter].
    fold (hits hb m).
    destruct (hits hb m) eqn:Ehit; cbn [negb andb orb length].
    + unfold resolveCollision.
      destruct (weaponMatches (hero g) m) eqn:Ew; cbn [negb length].
      * rewrite IH with (suf := suf).
        -- unfold collided. f_equal. game_eq.
           ++ rewrite app_nil_r. reflexivity.
           ++ rewrite orb_false_r. reflexivity.
        -- unfold_setters. rewrite Hg. apply delete_middle.
      * rewrite IH with (suf := suf).
        -- unfold collided. f_equal. game_eq.
           ++ rewrite app_nil_r. reflexivity.
           ++ rewrite orb_true_r. destruct (existsb _ pre); reflexivity.
        -- unfold_setters. rewrite Hg. apply delete_middle.
    + rewrite IH with (suf := m :: suf) by exact Hg.
      unfold collided. f_equal. game_eq.
      * rewrite <- app_assoc. reflexivity.
      * rewrite orb_false_r. reflexivity.
Qed.

(** The collision loop removes exactly the monsters that overlap the
    hero, counts each as defeated and takes one heart for each of them
    that the hero's weapon does not match; it never throws. *)
Lemma collideLoop_spec (g : Game) :
  collideLoop (length (monsters g)) hb g = Some (collided hb (monsters g) [] g).
Proof. apply collideLoop_app. rewrite app_nil_r. reflexivity. Qed.
End Collisions.

Section Frame.
Variables (cv : Canvas) (lv : Level) (inp : FrameInput) (g : Game).

Lemma hero_scrollBackground s d : hero (scrollBackground cv s d g) = hero g.
Proof.
  unfold scrollBackground. destruct (Qle_bool _ _); reflexivity.
Qed.

Lemma hero_afterSpawn : hero (afterSpawn cv lv inp g) = hero g.
Proof.
  unfold afterSpawn, spawnStep.
  destruct (_ && _); unfold spawnMonster; unfold_setters;
    apply hero_scrollBackground.
Qed.

Lemma playingStep_spec :
  playingStep cv (speed lv) inp (scrollBackground cv (speed lv) (delta inp) g)
  = Some (afterChecks cv lv inp g).
Proof.
  unfold playingStep. fold (afterSpawn cv lv inp g).
  rewrite moveLoop_spec. cbn [mbind option_bind].
  fold (movedMonsters cv lv inp g). fold (onscreenMonsters cv lv inp g).
  fold (afterMove cv lv inp g).
  assert (Hh : Hero.getBounds (hero (afterMove cv lv inp g)) = heroBox g).
  { unfold heroBox, afterMove. unfold_setters. now rewrite hero_afterSpawn. }
  rewrite Hh.
  rewrite collideLoop_spec. cbn [mbind option_bind].
  assert (Hm : monsters (afterMove cv lv inp g) = onscreenMonsters cv lv inp g)
    by (unfold afterMove; unfold_setters; reflexivity).
  rewrite Hm. unfold afterChecks, afterCollide. reflexivity.
Qed.

(** A frame in the [playing] state never throws, and its result is the
    composition of the stages. *)
Lemma update_playing :
  LEVELS !! levelIndex g = Some lv -> gameState g = playing ->
  update cv inp g = Some (afterChecks cv lv inp g).
Proof.
  intros Hlv Hst. unfold update. rewrite Hlv.
  replace (gameState (scrollBackground cv (speed lv) (delta inp) g))
    with playing.
  - cbn [GameState_eqb]. apply playingStep_spec.
  - rewrite <- Hst. unfold scrollBackground.
    destruct (Qle_bool _ _); reflexivity.
Qed.

(** In any other state only the background moves. *)
Lemma update_paused :
  LEVELS !! levelIndex g = Some lv -> gameState g <> playing ->
  update cv inp g = Some (scrollBackground cv (speed lv) (delta inp) g).
Proof.
  intros Hlv Hst. unfold update. rewrite Hlv.
  destruct (GameState_eqb _ playing) eqn:E; [|reflexivity].
  apply GameState_eqb_eq in E. exfalso. apply Hst. rewrite <- E.
  unfold scrollBackground. destruct (Qle_bool _ _); reflexivity.
Qed.
End Frame.

(** ** The three checks that end a frame *)

Lemma sameCore_refl g : sameCore g g.
Proof. repeat split. Qed.

Lemma sameCore_trans g1 g2 g3 : sameCore g1 g2 -> sameCore g2 g3 -> sameCore g1 g3.
Proof. unfold sameCore. intuition congruence. Qed.

Lemma flashTimer_core d g : sameCore (flashTimer d g) g.
Proof.
  unfold flashTimer. destruct (damageFlash g); [|apply sameCore_refl].
  destruct (Qle_bool _ _); repeat split.
Qed.

Lemma flashTimer_machine d g :
  gameState (flashTimer d g) = gameState g
  /\ choiceActive (flashTimer d g) = choiceActive g
  /\ nextChoiceAt (flashTimer d g) = nextChoiceAt g.
Proof.
  unfold flashTimer. destruct (damageFlash g); [|repeat split].
  destruct (Qle_bool _ _); repeat split.
Qed.

Lemma flashTimer_flash d g :
  damageFlash (flashTimer d g) =
    match damageFlash g with
    | None => None
    | Some f => if Qle_bool (f - d) 0 then None else Some (f - d)%Q
    end.
Proof.
  unfold flashTimer. destruct (damageFlash g) as [f|] eqn:E; [|exact E].
  destruct (Qle_bool _ _); reflexivity.
Qed.

Lemma checkChoice_core r g : sameCore (checkChoice r g) g.
Proof.
  unfold checkChoice, randomizeChoices.
  destruct (_ && _); [|apply sameCore_refl].
  destruct (Qlt_bool r 0.5); repeat split.
Qed.

Lemma checkChoice_machine r g :
  gameState (checkChoice r g) = (if choiceDue g then choice else gameState g)
  /\ choiceActive (checkChoice r g) = (if choiceDue g then true else choiceActive g)
  /\ nextChoiceAt (checkChoice r g) =
       (if choiceDue g then Z.min (nextChoiceAt g + 3) (monstersToSpawn g)
        else nextChoiceAt g)
  /\ damageFlash (checkChoice r g) = damageFlash g.
Proof.
  unfold checkChoice, choiceDue, randomizeChoices.
  destruct (_ && _); [|repeat split].
  destruct (Qlt_bool r 0.5); repeat split.
Qed.

Lemma checkGameOver_fields g :
  sameCore (checkGameOver g) g
  /\ gameState (checkGameOver g) = (if hearts g <=? 0 then gameOver else gameState g)
  /\ choiceActive (checkGameOver g) = choiceActive g
  /\ nextChoiceAt (checkGameOver g) = nextChoiceAt g
  /\ damageFlash (checkGameOver g) = damageFlash g.
Proof.
  unfold checkGameOver, sameCore.
  destruct (hearts g <=? 0); unfold_setters; repeat split; reflexivity.
Qed.

Lemma checkLevelEnd_fields g :
  sameCore (checkLevelEnd g) g
  /\ gameState (checkLevelEnd g) = (if levelDone g then levelEnd else gameState g)
  /\ choiceActive (checkLevelEnd g) = choiceActive g
  /\ nextChoiceAt (checkLevelEnd g) = nextChoiceAt g
  /\ damageFlash (checkLevelEnd g) = damageFlash g.
Proof.
  unfold checkLevelEnd, levelDone, sameCore.
  destruct (_ && _); unfold_setters; repeat split; reflexivity.
Qed.

(** The three checks in sequence: the later assignment of [gameState]
    wins, so level completion comes before game over, which comes before
    a new choice. *)
Lemma checks_spec r g :
  let g' := checkLevelEnd (checkGameOver (checkChoice r g)) in
  sameCore g' g
  /\ gameState g' =
       (if levelDone g then levelEnd
        else if hearts g <=? 0 then gameOver
        else if choiceDue g then choice
        else gameState g)
  /\ choiceActive g' = (if choiceDue g then true else choiceActive g)
  /\ nextChoiceAt g' =
       (if choiceDue g then Z.min (nextChoiceAt g + 3) (monstersToSpawn g)
        else nextChoiceAt g)
  /\ damageFlash g' = damageFlash g.
Proof.
  intros g'. subst g'.
  pose proof (checkChoice_core r g) as Hc.
  destruct (checkChoice_machine r g) as (Hs & Ha & Hn & Hf).
  set (g1 := checkChoice r g) in *.
  destruct (checkGameOver_fields g1) as (Ho & Hos & Hoa & Hon & Hof).
  set (g2 := checkGameOver g1) in *.
  destruct (checkLevelEnd_fields g2) as (He & Hes & Hea & Hen & Hef).
  set (g3 := checkLevelEnd g2) in *.
  pose proof (sameCore_trans _ _ _ Ho Hc) as H2.
  pose proof (sameCore_trans _ _ _ He H2) as H3.
  split; [exact H3|].
  assert (Hd : levelDone g2 = levelDone g).
  { unfold levelDone. destruct H2 as (_ & -> & _ & _ & _ & -> & -> & _).
    reflexivity. }
  assert (Hh : hearts g1 = hearts g) by apply Hc.
  rewrite Hes, Hd, Hos, Hh, Hs, Hea, Hoa, Ha, Hen, Hon, Hn, Hef, Hof, Hf.
  repeat split; reflexivity.
Qed.

(** The same, read off the session that the checks return. *)
Lemma checks_machine r c :
  let g' := checkLevelEnd (checkGameOver (checkChoice r c)) in
  let due := negb (choiceActive c)
             && (monstersDefeated g' >=? nextChoiceAt c)
             && (monstersDefeated g' <? monstersToSpawn g') in
  gameState g' =
    (if levelDone g' then levelEnd
     else if hearts g' <=? 0 then gameOver
     else if due then choice else gameState c)
  /\ choiceActive g' = (if due then true else choiceActive c)
  /\ nextChoiceAt g' =
       (if due then Z.min (nextChoiceAt c + 3) (monstersToSpawn g')
        else nextChoiceAt c).
Proof.
  intros g' due.
  destruct (checks_spec r c) as (Hcore & Cs & Ca & Cn & _).
  fold g' in Hcore, Cs, Ca, Cn.
  assert (Hd : levelDone g' = levelDone c).
  { unfold levelDone. destruct Hcore as (_ & -> & _ & _ & _ & -> & -> & _).
    reflexivity. }
  assert (Hdue : due = choiceDue c).
  { subst due. unfold choiceDue.
    destruct Hcore as (_ & _ & _ & _ & _ & -> & -> & _). reflexivity. }
  assert (Hh : hearts g' = hearts c) by apply Hcore.
  assert (Ht : monstersToSpawn g' = monstersToSpawn c) by apply Hcore.
  clearbody g' due. subst due.
  rewrite Hd, Hh, Ht, Cs, Ca, Cn. repeat split; reflexivity.
Qed.

(** ** The result of a [playing] frame, field by field *)

Lemma scrollBackground_fields cv s d g :
  let g' := scrollBackground cv s d g in
  levelIndex g' = levelIndex g /\ monsters g' = monsters g
  /\ spawnTimer g' = spawnTimer g /\ spawnInterval g' = spawnInterval g
  /\ monstersSpawned g' = monstersSpawned g
  /\ monstersDefeated g' = monstersDefeated g
  /\ monstersToSpawn g' = monstersToSpawn g
  /\ nextChoiceAt g' = nextChoiceAt g /\ hearts g' = hearts g
  /\ hero g' = hero g /\ gameState g' = gameState g
  /\ choiceActive g' = choiceActive g /\ leftOption g' = leftOption g
  /\ rightOption g' = rightOption g /\ damageFlash g' = damageFlash g.
Proof.
  unfold scrollBackground. destruct (Qle_bool _ _); repeat split.
Qed.

Section FrameFields.
Variables (cv : Canvas) (lv : Level) (inp : FrameInput) (g : Game).

Let g1 := afterSpawn cv lv inp g.
Let g' := afterChecks cv lv inp g.
Let onscr := onscreenMonsters cv lv inp g.
Let hb := heroBox g.

(** The spawn adds at most one monster, at the end of the list, and
    only below the quota. *)
Lemma afterSpawn_monsters :
  (monstersSpawned g < monstersToSpawn g
   /\ monstersSpawned g1 = monstersSpawned g + 1
   /\ monsters g1 =
        monsters g ++
        [Monster.new cv (if Qlt_bool (r_type inp) 0.5 then beast else ghost)
           (r_x inp)])
  \/ (monstersSpawned g1 = monstersSpawned g /\ monsters g1 = monsters g).
Proof.
  subst g1. unfold afterSpawn, spawnStep.
  destruct (scrollBackground_fields cv (speed lv) (delta inp) g)
    as (_ & Hm & _ & _ & Hs & _ & Ht & _).
  set (g0 := scrollBackground cv (speed lv) (delta inp) g) in *.
  unfold_setters.
  destruct (monstersSpawned g0 <? monstersToSpawn g0) eqn:E; simpl.
  - destruct (Qle_bool _ _); simpl.
    + left. apply Z.ltb_lt in E. unfold spawnMonster. unfold_setters.
      rewrite Hm, Hs. repeat split. lia.
    + right. split; assumption.
  - right. split; assumption.
Qed.

Lemma afterSpawn_fields :
  levelIndex g1 = levelIndex g /\ spawnInterval g1 = spawnInterval g
  /\ monstersDefeated g1 = monstersDefeated g
  /\ monstersToSpawn g1 = monstersToSpawn g
  /\ nextChoiceAt g1 = nextChoiceAt g /\ hearts g1 = hearts g
  /\ hero g1 = hero g /\ gameState g1 = gameState g
  /\ choiceActive g1 = choiceActive g /\ damageFlash g1 = damageFlash g.
Proof.
  subst g1. unfold afterSpawn, spawnStep.
  destruct (scrollBackground_fields cv (speed lv) (delta inp) g)
    as (H1 & _ & _ & H4 & _ & H6 & H7 & H8 & H9 & H10 & H11 & H12 & _ & _ & H15).
  set (g0 := scrollBackground cv (speed lv) (delta inp) g) in *.
  destruct (_ && _); unfold spawnMonster; unfold_setters; tauto.
Qed.

(** The fields that the two loops decide. *)
Lemma frame_fields :
  levelIndex g' = levelIndex g /\ spawnInterval g' = spawnInterval g
  /\ monstersToSpawn g' = monstersToSpawn g
  /\ hero g' = hero g
  /\ monstersSpawned g' = monstersSpawned g1
  /\ monsters g' = List.filter (misses hb) onscr
  /\ monstersDefeated g' =
       monstersDefeated g
       + countb Monster.offscreen (movedMonsters cv lv inp g)
       + countb (hits hb) onscr
  /\ hearts g' = hearts g - countb (hurts (hero g) hb) onscr.
Proof.
  destruct afterSpawn_fields as (H1 & H2 & H3 & H4 & _ & H6 & H7 & _).
  subst g'. unfold afterChecks.
  destruct (checks_spec (r_choice inp)
              (flashTimer (delta inp) (afterCollide cv lv inp g)))
    as ((C1 & C2 & _ & C4 & C5 & C6 & C7 & C8 & C9 & _) & _).
  destruct (flashTimer_core (delta inp) (afterCollide cv lv inp g))
    as (F1 & F2 & _ & F4 & F5 & F6 & F7 & F8 & F9 & _).
  rewrite C1, C2, C4, C5, C6, C7, C8, C9, F1, F2, F4, F5, F6, F7, F8, F9.
  unfold afterCollide, collided, afterMove. unfold_setters.
  fold g1. fold onscr. fold hb.
  rewrite H1, H2, H3, H4, H6, H7, app_nil_r. tauto.
Qed.

Lemma afterCollide_machine :
  let c := flashTimer (delta inp) (afterCollide cv lv inp g) in
  gameState c = gameState g /\ choiceActive c = choiceActive g
  /\ nextChoiceAt c = nextChoiceAt g.
Proof.
  intros c. subst c.
  destruct afterSpawn_fields as (_ & _ & _ & _ & H5 & _ & _ & H8 & H9 & _).
  destruct (flashTimer_machine (delta inp) (afterCollide cv lv inp g))
    as (M1 & M2 & M3).
  rewrite M1, M2, M3.
  unfold afterCollide, collided, afterMove. unfold_setters. fold g1.
  rewrite H5, H8, H9. repeat split; reflexivity.
Qed.

(** The state-machine fields, from the values at the end of the frame. *)
Lemma frame_machine :
  gameState g = playing ->
  gameState g' =
    (if levelDone g' then levelEnd
     else if hearts g' <=? 0 then gameOver
     else if negb (choiceActive g)
             && (monstersDefeated g' >=? nextChoiceAt g)
             && (monstersDefeated g' <? monstersToSpawn g')
     then choice else playing)
  /\ choiceActive g' =
       (if negb (choiceActive g)
           && (monstersDefeated g' >=? nextChoiceAt g)
           && (monstersDefeated g' <? monstersToSpawn g')
        then true else choiceActive g)
  /\ nextChoiceAt g' =
       (if negb (choiceActive g)
           && (monstersDefeated g' >=? nextChoiceAt g)
           && (monstersDefeated g' <? monstersToSpawn g')
        then Z.min (nextChoiceAt g + 3) (monstersToSpawn g')
        else nextChoiceAt g).
Proof.
  intros Hplay.
  destruct afterCollide_machine as (Hs & Ha & Hn).
  pose proof (checks_machine (r_choice inp)
                (flashTimer (delta inp) (afterCollide cv lv inp g))) as Hm.
  cbv zeta in Hm, Hs, Ha, Hn. rewrite Hs, Ha, Hn, Hplay in Hm. exact Hm.
Qed.
(** The damage flash at the end of the frame: armed at 0.2 s by a
    collision that hurts, then run down by the frame's [delta]. *)
Lemma frame_flash :
  damageFlash g' =
    match (if existsb (hurts (hero g) hb) onscr then Some 0.2%Q
           else damageFlash g) with
    | None => None
    | Some f => if Qle_bool (f - delta inp) 0 then None else Some (f - delta inp)%Q
    end.
Proof.
  destruct afterSpawn_fields as (_ & _ & _ & _ & _ & _ & H7 & _ & _ & H10).
  subst g'. unfold afterChecks.
  destruct (checks_spec (r_choice inp)
              (flashTimer (delta inp) (afterCollide cv lv inp g)))
    as (_ & _ & _ & _ & Cf).
  cbv zeta in Cf. rewrite Cf, flashTimer_flash.
  unfold afterCollide, collided, afterMove. unfold_setters.
  fold g1. fold onscr. fold hb. rewrite H7, H10. reflexivity.
Qed.
End FrameFields.

(** ** The session invariant is kept *)

Lemma wellFormed_new cv ty r : wellFormed (Monster.new cv ty r).
Proof. reflexivity. Qed.

Lemma wellFormed_update dt s m : wellFormed m -> wellFormed (Monster.update dt s m).
Proof. exact (fun H => H). Qed.

Lemma Forall_filterb {A} (P : A -> Prop) (p : A -> bool) (l : list A) :
  Forall P l -> Forall P (List.filter p l).
Proof.
  induction 1 as [|a l Ha Hl IH]; simpl; [constructor|].
  destruct (p a); [constructor|]; assumption.
Qed.

Lemma Forall_filterb_true {A} (p : A -> bool) (l : list A) :
  Forall (fun a => p a = true) (List.filter p l).
Proof.
  induction l as [|a l IH]; simpl; [constructor|].
  destruct (p a) eqn:E; [constructor|]; assumption.
Qed.

Lemma length_filterb_le {A} (p : A -> bool) (l : list A) :
  (length (List.filter p l) <= length l)%nat.
Proof.
  induction l as [|a l IH]; simpl; [lia|]. destruct (p a); simpl; lia.
Qed.
Lemma LEVELS_count_pos i lv : LEVELS !! i = Some lv -> 3 <= monsterCount lv.
Proof.
  intros H.
  do 10 (destruct i as [|i]; [inversion H; subst; simpl; lia|]).
  inversion H.
Qed.

Lemma startLevel_fields cv r i g g' :
  startLevel cv r i g = Some g' ->
  exists lv, LEVELS !! i = Some lv
    /\ levelIndex g' = i /\ monsters g' = [] /\ monstersSpawned g' = 0
    /\ monstersDefeated g' = 0 /\ monstersToSpawn g' = monsterCount lv
    /\ spawnInterval g' = Z.max 400 (1000 - Z.of_nat i * 50)
    /\ nextChoiceAt g' = Z.min 3 (monsterCount lv)
    /\ hearts g' = 3 /\ Hero.weapon (hero g') = sword
    /\ gameState g' = choice /\ choiceActive g' = true.
Proof.
  unfold startLevel. destruct (LEVELS !! i) as [lv|]; [|discriminate].
  intros [= <-]. exists lv. unfold randomizeChoices.
  destruct (Qlt_bool r 0.5); unfold_setters; repeat split.
Qed.

Lemma startLevel_Inv cv r i g g' : startLevel cv r i g = Some g' -> Inv g'.
Proof.
  intros H. destruct (startLevel_fields _ _ _ _ _ H)
    as (lv & Hlv & H1 & H2 & H3 & H4 & H5 & H6 & H7 & H8 & H9 & H10 & H11).
  pose proof (LEVELS_count_pos _ _ Hlv).
  constructor; rewrite ?H1, ?H2, ?H3, ?H4, ?H5, ?H6, ?H8, ?H10, ?H11;
    simpl; try lia; try congruence.
  - exists lv. split; [assumption|reflexivity].
  - constructor.
Qed.

Lemma handleChoiceSelection_Inv left g : Inv g -> Inv (handleChoiceSelection left g).
Proof.
  intros I. unfold handleChoiceSelection.
  destruct (GameState_eqb (gameState g) choice) eqn:E; simpl; [|exact I].
  apply GameState_eqb_eq in E.
  destruct I. constructor; unfold_setters; auto; congruence.
Qed.

Lemma scrollBackground_Inv cv s d g : Inv g -> Inv (scrollBackground cv s d g).
Proof.
  intros I.
  destruct (scrollBackground_fields cv s d g)
    as (H1 & H2 & H3 & H4 & H5 & H6 & H7 & H8 & H9 & H10 & H11 & H12 & _).
  cbv zeta in *.
  destruct I. constructor; rewrite ?H1, ?H2, ?H4, ?H5, ?H6, ?H7, ?H9, ?H11, ?H12;
    assumption.
Qed.

(** A frame in the [playing] state keeps the invariant. *)
Lemma afterChecks_Inv cv lv inp g :
  LEVELS !! levelIndex g = Some lv -> gameState g = playing ->
  Inv g -> Inv (afterChecks cv lv inp g).
Proof.
  intros Hlv Hplay I.
  destruct (frame_fields cv lv inp g)
    as (F1 & F2 & F3 & F4 & F5 & F6 & F7 & F8).
  destruct (frame_machine cv lv inp g Hplay) as (Ms & Ma & Mn).
  pose proof (afterSpawn_monsters cv lv inp g) as Hsp.
  set (g' := afterChecks cv lv inp g) in *.
  set (g1 := afterSpawn cv lv inp g) in *.
  set (hb := heroBox g) in *.
  assert (Hmoved : length (movedMonsters cv lv inp g) = length (monsters g1))
    by (unfold movedMonsters; apply length_map).
  pose proof (countb_split Monster.offscreen (movedMonsters cv lv inp g)) as Hoff.
  fold onscreen in Hoff.
  assert (Honscr : countb onscreen (movedMonsters cv lv inp g)
                   = Z.of_nat (length (onscreenMonsters cv lv inp g)))
    by reflexivity.
  pose proof (countb_split (hits hb) (onscreenMonsters cv lv inp g)) as Hhit.
  assert (Hmiss : countb (fun a => negb (hits hb a)) (onscreenMonsters cv lv inp g)
                  = Z.of_nat (length (monsters g')))
    by (rewrite F6; reflexivity).
  pose proof (countb_hurts_le (hero g) hb (onscreenMonsters cv lv inp g)) as Hhurt.
  pose proof (countb_nonneg (hurts (hero g) hb) (onscreenMonsters cv lv inp g)).
  pose proof (countb_nonneg (hits hb) (onscreenMonsters cv lv inp g)).
  pose proof (countb_nonneg Monster.offscreen (movedMonsters cv lv inp g)).
  destruct I as [(lv0 & Hl0 & Hq) Iint Icnt Ispn Idef Ihmax Ihlost Ialive Ist Ich Ireq].
  assert (Hlen1 : monstersDefeated g + Z.of_nat (length (monsters g1))
                  = monstersSpawned g1 /\ monstersSpawned g1 <= monstersToSpawn g).
  { destruct Hsp as [(Hlt & Hs & Hm)|(Hs & Hm)]; rewrite Hs, Hm.
    - rewrite length_app. simpl. lia.
    - lia. }
  constructor.
  - exists lv0. rewrite F1, F3. split; assumption.
  - rewrite F1, F2. assumption.
  - rewrite F5, F7. lia.
  - rewrite F5, F3. lia.
  - rewrite F7. lia.
  - rewrite F8. lia.
  - rewrite F7, F8. lia.
  - rewrite Ms. destruct (levelDone g'); [intros [|]; discriminate|].
    destruct (hearts g' <=? 0) eqn:E; [intros [|]; discriminate|].
    intros _. apply Z.leb_gt in E. lia.
  - rewrite Ms. destruct (levelDone g'); [discriminate|].
    destruct (hearts g' <=? 0); [discriminate|].
    destruct (_ && _); discriminate.
  - rewrite Ms, Ma. destruct (levelDone g'); [discriminate|].
    destruct (hearts g' <=? 0); [discriminate|].
    destruct (_ && _); [discriminate|]. intros _. apply Ich. assumption.
  - rewrite F6. apply Forall_filterb. unfold onscreenMonsters.
    apply Forall_filterb. unfold movedMonsters. fold g1.
    apply Forall_map.
    assert (Hg1 : Forall wellFormed (monsters g1)).
    { destruct Hsp as [(_ & _ & Hm)|(_ & Hm)]; rewrite Hm; [|assumption].
      apply Forall_app. split; [assumption|].
      constructor; [apply wellFormed_new|constructor]. }
    eapply Forall_impl; [exact Hg1|].
    intros m Hm. apply wellFormed_update. exact Hm.
Qed.

Lemma update_Inv cv inp g g' : Inv g -> update cv inp g = Some g' -> Inv g'.
Proof.
  intros I H. destruct (inv_level g I) as (lv & Hlv & _).
  destruct (GameState_eqb (gameState g) playing) eqn:E.
  - apply GameState_eqb_eq in E.
    rewrite (update_playing cv lv inp g Hlv E) in H. injection H as <-.
    apply afterChecks_Inv; assumption.
  - assert (gameState g <> playing)
      by (intros Hp; apply GameState_eqb_eq in Hp; congruence).
    rewrite (update_paused cv lv inp g Hlv) in H by assumption.
    injection H as <-. apply scrollBackground_Inv. assumption.
Qed.

Lemma advanceLevel_Inv cv r g g' : advanceLevel cv r g = Some g' -> Inv g'.
Proof.
  unfold advanceLevel. destruct (_ <? _)%nat; apply startLevel_Inv.
Qed.

Lemma onPointerDown_Inv cv x r g g' :
  Inv g -> onPointerDown cv x r g = Some g' -> Inv g'.
Proof.
  intros I. unfold onPointerDown. destruct (gameState g).
  - intros [= <-]. exact I.
  - intros [= <-]. apply handleChoiceSelection_Inv. exact I.
  - intros [= <-]. exact I.
  - apply advanceLevel_Inv.
  - apply startLevel_Inv.
Qed.

Lemma onKeyDown_Inv cv key r g g' :
  Inv g -> onKeyDown cv key r g = Some g' -> Inv g'.
Proof.
  intros I. unfold onKeyDown. destruct (gameState g).
  - intros [= <-]. exact I.
  - destruct (_ || _); [|destruct (_ || _)]; intros [= <-];
      try apply handleChoiceSelection_Inv; exact I.
  - intros [= <-]. exact I.
  - destruct (_ || _); [apply advanceLevel_Inv|intros [= <-]; exact I].
  - destruct (_ || _); [apply startLevel_Inv|intros [= <-]; exact I].
Qed.

Lemma step_Inv ev w w' : Inv (game w) -> step ev w = Some w' -> Inv (game w').
Proof.
  intros I. destruct ev as [inp|x r|key r|cw ch]; cbn [step].
  - destruct (update (canvas w) inp (game w)) as [g'|] eqn:E; [|discriminate].
    intros [= <-]. eapply update_Inv; eassumption.
  - destruct (onPointerDown (canvas w) x r (game w)) as [g'|] eqn:E;
      [|discriminate].
    intros [= <-]. eapply onPointerDown_Inv; eassumption.
  - destruct (onKeyDown (canvas w) key r (game w)) as [g'|] eqn:E;
      [|discriminate].
    intros [= <-]. eapply onKeyDown_Inv; eassumption.
  - intros [= <-]. exact I.
Qed.

Lemma reachable_Inv w : reachable w -> Inv (game w).
Proof.
  induction 1 as [cv r w _ _ Hb|ev w w' _ IH _ Hs].
  - unfold boot in Hb.
    destruct (startLevel cv r 0 Game_new) as [g|] eqn:E; [|discriminate].
    injection Hb as <-. simpl. eapply startLevel_Inv; eassumption.
  - eapply step_Inv; eassumption.
Qed.

(** ** No handler throws in a reachable session *)

Lemma startLevel_total cv r i g :
  (i < length LEVELS)%nat -> exists g', startLevel cv r i g = Some g'.
Proof.
  intros Hi. unfold startLevel.
  destruct (LEVELS !! i) as [lv|] eqn:E; [eexists; reflexivity|].
  apply lookup_ge_None in E. lia.
Qed.

Lemma advanceLevel_total cv r g : exists g', advanceLevel cv r g = Some g'.
Proof.
  unfold advanceLevel. destruct (_ <? _)%nat eqn:E.
  - apply Nat.ltb_lt in E. apply startLevel_total. simpl in *. lia.
  - apply startLevel_total. simpl. lia.
Qed.

Lemma update_total cv inp g : Inv g -> exists g', update cv inp g = Some g'.
Proof.
  intros I. destruct (inv_level g I) as (lv & Hlv & _).
  destruct (GameState_eqb (gameState g) playing) eqn:E.
  - apply GameState_eqb_eq in E. eexists. apply (update_playing cv lv); assumption.
  - eexists. apply (update_paused cv lv); [assumption|].
    intros Hp. apply GameState_eqb_eq in Hp. congruence.
Qed.

Lemma onPointerDown_total cv x r g : exists g', onPointerDown cv x r g = Some g'.
Proof.
  unfold onPointerDown. destruct (gameState g).
  - eexists; reflexivity.
  - eexists; reflexivity.
  - eexists; reflexivity.
  - apply advanceLevel_total.
  - apply startLevel_total. cbn. lia.
Qed.

Lemma onKeyDown_total cv key r g : exists g', onKeyDown cv key r g = Some g'.
Proof.
  unfold onKeyDown. destruct (gameState g).
  - eexists; reflexivity.
  - destruct (_ || _); [|destruct (_ || _)]; eexists; reflexivity.
  - eexists; reflexivity.
  - destruct (_ || _); [apply advanceLevel_total|eexists; reflexivity].
  - destruct (_ || _); [|eexists; reflexivity].
    apply startLevel_total. cbn. lia.
Qed.

Lemma step_total ev w : Inv (game w) -> exists w', step ev w = Some w'.
Proof.
  intros I. destruct ev as [inp|x r|key r|cw ch]; cbn [step].
  - destruct (update_total (canvas w) inp _ I) as (g' & ->). eexists; reflexivity.
  - destruct (onPointerDown_total (canvas w) x r (game w)) as (g' & ->).
    eexists; reflexivity.
  - destruct (onKeyDown_total (canvas w) key r (game w)) as (g' & ->).
    eexists; reflexivity.
  - eexists; reflexivity.
Qed.

(** ** Sessions checked by computation *)

Lemma draw_okb_ok r : draw_okb r = true -> draw_ok r.
Proof.
  unfold draw_okb, draw_ok. rewrite andb_true_iff, Qle_bool_iff, Qlt_bool_iff.
  tauto.
Qed.

Lemma canvas_okb_ok cv : canvas_okb cv = true -> canvas_ok cv.
Proof.
  unfold canvas_okb, canvas_ok. rewrite andb_true_iff, !Qlt_bool_iff. tauto.
Qed.

Lemma frame_okb_ok inp : frame_okb inp = true -> frame_ok inp.
Proof.
  unfold frame_okb, frame_ok. rewrite !andb_true_iff, Qle_bool_iff.
  intros (((H1 & H2) & H3) & H4). auto using draw_okb_ok.
Qed.

Lemma event_okb_ok ev : event_okb ev = true -> event_ok ev.
Proof.
  destruct ev; simpl; auto using frame_okb_ok, draw_okb_ok, canvas_okb_ok.
Qed.

Lemma run_reachable evs w w' :
  reachable w -> forallb event_okb evs = true -> run evs w = Some w' ->
  reachable w'.
Proof.
  revert w. induction evs as [|ev evs IH]; simpl; intros w Hw Hok Hrun.
  - injection Hrun as <-. exact Hw.
  - apply andb_true_iff in Hok. destruct Hok as (Hev & Hevs).
    destruct (step ev w) as [w1|] eqn:E; [|discriminate]. simpl in Hrun.
    apply (IH w1); [|assumption|assumption].
    eapply reach_step; [exact Hw|apply event_okb_ok; exact Hev|exact E].
Qed.

Lemma play_reachable cv r evs w :
  canvas_okb cv = true -> draw_okb r = true -> forallb event_okb evs = true ->
  play cv r evs = Some w -> reachable w.
Proof.
  intros Hcv Hr Hevs. unfold play.
  destruct (boot cv r) as [w0|] eqn:E; [|discriminate]. simpl. intros Hrun.
  apply (run_reachable evs w0); [|assumption|assumption].
  eapply reach_boot; [apply canvas_okb_ok; exact Hcv|apply draw_okb_ok; exact Hr|exact E].
Qed.

Lemma run_total evs w : Inv (game w) -> exists w', run evs w = Some w'.
Proof.
  revert w. induction evs as [|ev evs IH]; intros w I; cbn [run].
  - eexists; reflexivity.
  - destruct (step_total ev w I) as (w1 & E). rewrite E. cbn [mbind option_bind].
    apply IH. eapply step_Inv; eassumption.
Qed.

(** No handler throws, whatever the events. *)
Lemma play_total cv r evs : exists w, play cv r evs = Some w.
Proof.
  unfold play, boot.
  destruct (startLevel_total cv r 0 Game_new) as (g & E); [cbn; lia|].
  rewrite E. cbn [mbind option_bind].
  apply run_total. eapply startLevel_Inv. exact E.
Qed.

Lemma session_reachable cv r evs :
  canvas_okb cv = true -> draw_okb r = true -> forallb event_okb evs = true ->
  reachable (session cv r evs).
Proof.
  intros Hcv Hr Hevs. unfold session.
  destruct (play_total cv r evs) as (w & E). rewrite E.
  eapply play_reachable; eassumption.
Qed.

(** A frame that returns ran on a session whose level exists. *)
Lemma update_Some_level cv inp g g' :
  update cv inp g = Some g' -> exists lv, LEVELS !! levelIndex g = Some lv.
Proof.
  unfold update. destruct (LEVELS !! levelIndex g) as [lv|]; [|discriminate].
  intros _. exists lv. reflexivity.
Qed.

Lemma update_playing_inv cv inp g g' :
  gameState g = playing -> update cv inp g = Some g' ->
  exists lv, LEVELS !! levelIndex g = Some lv /\ g' = afterChecks cv lv inp g.
Proof.
  intros Hp H. destruct (update_Some_level _ _ _ _ H) as (lv & Hlv).
  exists lv. split; [exact Hlv|].
  rewrite (update_playing cv lv inp g Hlv Hp) in H. congruence.
Qed.

Lemma levelDone_iff g :
  levelDone g = true <-> monstersToSpawn g <= monstersDefeated g /\ monsters g = [].
Proof.
  unfold levelDone. rewrite andb_true_iff, Z.geb_le, Nat.eqb_eq.
  split; intros (H1 & H2); (split; [exact H1|]).
  - destruct (monsters g); [reflexivity|discriminate].
  - rewrite H2. reflexivity.
Qed.

(** Reading a frame report. *)
Lemma frameReport_inv inp w s h d n c q s' h' d' n' c' q' :
  frameReport inp w = Some ((s, h, d, n, c, q), (s', h', d', n', c', q')) ->
  (gameState (game w) = s /\ hearts (game w) = h
   /\ monstersDefeated (game w) = d /\ nextChoiceAt (game w) = n
   /\ choiceActive (game w) = c /\ monstersToSpawn (game w) = q)
  /\ exists g', update (canvas w) inp (game w) = Some g'
       /\ gameState g' = s' /\ hearts g' = h' /\ monstersDefeated g' = d'
       /\ nextChoiceAt g' = n' /\ choiceActive g' = c'
       /\ monstersToSpawn g' = q'.
Proof.
  unfold frameReport.
  destruct (update (canvas w) inp (game w)) as [g'|]; [|discriminate].
  cbn [mbind option_bind]. intros [= <- <- <- <- <- <- <- <- <- <- <- <-].
  split; [repeat split|]. exists g'. repeat split.
Qed.

(** * The claims *)

(** ** Level start *)

(** C10. For every level index [i] of the table, [startLevel(i)] returns,
    whatever the session was before, and leaves 3 hearts, no monster,
    spawn and defeat counters at 0, the sword in the hero's hand and the
    state [choice]: damage never carries over to the next level or to a
    restart. *)
Theorem startLevel_resets cv r (i : nat) g :
  (i < length LEVELS)%nat ->
  exists g', startLevel cv r i g = Some g'
    /\ hearts g' = 3 /\ monsters g' = [] /\ monstersSpawned g' = 0
    /\ monstersDefeated g' = 0 /\ Hero.weapon (hero g') = sword
    /\ gameState g' = choice.
Proof.
  intros Hi. destruct (startLevel_total cv r i g Hi) as (g' & E).
  exists g'. split; [exact E|].
  destruct (startLevel_fields _ _ _ _ _ E)
    as (lv & _ & _ & H2 & H3 & H4 & _ & _ & _ & H8 & H9 & H10 & _).
  repeat split; assumption.
Qed.

(** C10 at level 3, from a session that has one heart left. *)
Lemma startLevel_resets_witness :
  exists g', startLevel demoCanvas 0.75 3 (set_hearts 1 Game_new) = Some g'
    /\ hearts g' = 3 /\ monsters g' = [] /\ monstersSpawned g' = 0
    /\ monstersDefeated g' = 0 /\ Hero.weapon (hero g') = sword
    /\ gameState g' = choice.
Proof.
  apply (startLevel_resets demoCanvas 0.75 3 (set_hearts 1 Game_new)).
  vm_compute. lia.
Defined.

(** ** Counters *)

(** C8. In every reachable session the monsters defeated and the monsters
    on the list add up to the monsters spawned, which never exceed the
    quota; so [monstersDefeated <= monstersToSpawn]. *)
Theorem defeated_le_quota w :
  reachable w ->
  monstersDefeated (game w) + Z.of_nat (length (monsters (game w)))
    = monstersSpawned (game w)
  /\ monstersSpawned (game w) <= monstersToSpawn (game w)
  /\ monstersDefeated (game w) <= monstersToSpawn (game w).
Proof.
  intros Hw. destruct (reachable_Inv w Hw). repeat split; lia.
Qed.

(** C8 after the six frames of [ghostAhead]. *)
Lemma defeated_le_quota_witness :
  let w := session demoCanvas 0.25 ghostAhead in
  monstersDefeated (game w) + Z.of_nat (length (monsters (game w)))
    = monstersSpawned (game w)
  /\ monstersSpawned (game w) <= monstersToSpawn (game w)
  /\ monstersDefeated (game w) <= monstersToSpawn (game w).
Proof.
  apply (defeated_le_quota (session demoCanvas 0.25 ghostAhead)).
  apply session_reachable; vm_compute; reflexivity.
Defined.

(** ** Hearts *)

(** C1, as the code has it. In every reachable session [hearts] is at
    most 3 and at least [3 - monstersDefeated], and at least 1 as long as
    the state is [choice] or [playing]: a frame starts with 1 to 3 hearts
    and takes one heart for each mismatched collision of the frame, so it
    can end below 0 (then in [gameOver] or [levelEnd]). *)
Theorem hearts_bounds w :
  reachable w ->
  hearts (game w) <= 3
  /\ 3 - monstersDefeated (game w) <= hearts (game w)
  /\ (gameState (game w) = choice \/ gameState (game w) = playing ->
      1 <= hearts (game w))
  /\ (hearts (game w) <= 0 ->
      gameState (game w) = gameOver \/ gameState (game w) = levelEnd).
Proof.
  intros Hw. destruct (reachable_Inv w Hw).
  repeat split; try assumption.
  intros Hz. destruct (gameState (game w)) eqn:E.
  - congruence.
  - assert (1 <= hearts (game w)) by auto. lia.
  - assert (1 <= hearts (game w)) by auto. lia.
  - right; reflexivity.
  - left; reflexivity.
Qed.

(** C1 (amended) after the six frames of [ghostAhead]. *)
Lemma hearts_bounds_witness :
  let w := session demoCanvas 0.25 ghostAhead in
  hearts (game w) <= 3
  /\ 3 - monstersDefeated (game w) <= hearts (game w)
  /\ (gameState (game w) = choice \/ gameState (game w) = playing ->
      1 <= hearts (game w))
  /\ (hearts (game w) <= 0 ->
      gameState (game w) = gameOver \/ gameState (game w) = levelEnd).
Proof.
  apply (hearts_bounds (session demoCanvas 0.25 ghostAhead)).
  apply session_reachable; vm_compute; reflexivity.
Defined.

(** C1 as stated fails: in the session [fourGhosts] four ghosts reach the
    sword-bearing hero in one frame, and the frame ends with -1 hearts. *)
Lemma hearts_below_zero :
  reachable (session demoCanvas 0.25 fourGhosts)
  /\ hearts (game (session demoCanvas 0.25 fourGhosts)) = -1
  /\ ~ (0 <= hearts (game (session demoCanvas 0.25 fourGhosts)) <= 3).
Proof.
  assert (H : hearts (game (session demoCanvas 0.25 fourGhosts)) = -1)
    by (vm_compute; reflexivity).
  split; [apply session_reachable; vm_compute; reflexivity|].
  split; [exact H|]. rewrite H. lia.
Qed.

(** ** End of a frame: level end and game over *)

(** C4. A frame in the [playing] state ends in [levelEnd] exactly when, at
    the end of that frame, the monsters defeated have reached the quota
    and the monster list is empty. *)
Theorem levelEnd_iff cv inp g g' :
  gameState g = playing -> update cv inp g = Some g' ->
  (gameState g' = levelEnd
   <-> monstersToSpawn g' <= monstersDefeated g' /\ monsters g' = []).
Proof.
  intros Hp H.
  destruct (update_playing_inv _ _ _ _ Hp H) as (lv & Hlv & ->).
  destruct (frame_machine cv lv inp g Hp) as (Hs & _).
  rewrite <- levelDone_iff. rewrite Hs.
  destruct (levelDone (afterChecks cv lv inp g)).
  - split; reflexivity.
  - destruct (hearts _ <=? 0); [split; discriminate|].
    destruct (_ && _); split; discriminate.
Qed.

(** C4 on the frame in which the first ghost of [ghostAhead] arrives:
    four monsters remain, the state is not [levelEnd]. *)
Lemma levelEnd_iff_witness :
  exists g',
    update demoCanvas slowTick (game (session demoCanvas 0.25 ghostAhead)) = Some g'
    /\ (gameState g' = levelEnd
        <-> monstersToSpawn g' <= monstersDefeated g' /\ monsters g' = []).
Proof.
  destruct (update demoCanvas slowTick (game (session demoCanvas 0.25 ghostAhead)))
    as [g'|] eqn:E; [|vm_compute in E; discriminate].
  exists g'. split; [reflexivity|].
  apply (levelEnd_iff demoCanvas slowTick
           (game (session demoCanvas 0.25 ghostAhead)) g').
  - vm_compute. reflexivity.
  - exact E.
Defined.

(** C2, as the code has it. A frame in the [playing] state that ends with
    no heart left ends in [gameOver], unless the level is completed in
    that same frame: the completion check runs last, and then the frame
    ends in [levelEnd]. *)
Theorem gameOver_unless_levelDone cv inp g g' :
  gameState g = playing -> update cv inp g = Some g' -> hearts g' <= 0 ->
  gameState g' = (if levelDone g' then levelEnd else gameOver).
Proof.
  intros Hp H Hh.
  destruct (update_playing_inv _ _ _ _ Hp H) as (lv & Hlv & ->).
  destruct (frame_machine cv lv inp g Hp) as (Hs & _).
  rewrite Hs. destruct (levelDone _); [reflexivity|].
  destruct (Z.leb_spec (hearts (afterChecks cv lv inp g)) 0); [reflexivity|lia].
Qed.

(** C2 (amended) on the frame in which the third ghost of
    [thirdGhostAhead] takes the last heart: two monsters remain, the frame
    ends in [gameOver]. *)
Lemma gameOver_unless_levelDone_witness :
  exists g',
    update demoCanvas slowTick (game (session demoCanvas 0.25 thirdGhostAhead))
      = Some g'
    /\ gameState g' = (if levelDone g' then levelEnd else gameOver).
Proof.
  destruct (update demoCanvas slowTick
              (game (session demoCanvas 0.25 thirdGhostAhead)))
    as [g'|] eqn:E; [|vm_compute in E; discriminate].
  exists g'. split; [reflexivity|].
  apply (gameOver_unless_levelDone demoCanvas slowTick
           (game (session demoCanvas 0.25 thirdGhostAhead)) g').
  - vm_compute. reflexivity.
  - exact E.
  - vm_compute in E. injection E as <-. vm_compute. discriminate.
Defined.

(** C2 as stated fails: in the session [lastGhostAhead] the hero has one
    heart left and the sword, and the fifth and last monster of level 0, a
    ghost, arrives in the next frame; that frame brings the hearts to 0,
    completes the level, and ends in [levelEnd]. *)
Lemma gameOver_preempted :
  let w := session demoCanvas 0.25 lastGhostAhead in
  reachable w /\ gameState (game w) = playing /\ hearts (game w) = 1
  /\ exists g', update (canvas w) (tick ghostDraw 0) (game w) = Some g'
       /\ hearts g' = 0 /\ gameState g' = levelEnd /\ gameState g' <> gameOver.
Proof.
  cbv zeta.
  assert (H : frameReport (tick ghostDraw 0)
                 (session demoCanvas 0.25 lastGhostAhead)
              = Some ((playing, 1, 4, 5, false, 5), (levelEnd, 0, 5, 5, false, 5)))
    by (vm_compute; reflexivity).
  apply frameReport_inv in H.
  destruct H as ((H1 & H2 & _) & g' & E & H3 & H4 & _).
  split; [apply session_reachable; vm_compute; reflexivity|].
  split; [exact H1|]. split; [exact H2|].
  exists g'. split; [exact E|]. split; [exact H4|]. split; [exact H3|].
  rewrite H3. discriminate.
Qed.

(** ** Frames outside [playing] *)

(** C9, as the code has it. In the states [choice], [levelEnd] and
    [gameOver] a frame changes no field of the session but [bgX]: the
    background keeps scrolling behind the overlay. *)
Theorem paused_frame cv inp g g' :
  gameState g = choice \/ gameState g = levelEnd \/ gameState g = gameOver ->
  update cv inp g = Some g' ->
  g' = set_bgX (bgX g') g
  /\ exists lv, LEVELS !! levelIndex g = Some lv
       /\ g' = scrollBackground cv (speed lv) (delta inp) g.
Proof.
  intros Hst H. destruct (update_Some_level _ _ _ _ H) as (lv & Hlv).
  assert (Hnp : gameState g <> playing) by (destruct Hst as [->|[->| ->]]; discriminate).
  rewrite (update_paused cv lv inp g Hlv Hnp) in H. injection H as <-.
  split; [|exists lv; split; [exact Hlv|reflexivity]].
  destruct (scrollBackground_fields cv (speed lv) (delta inp) g)
    as (H1 & H2 & H3 & H4 & H5 & H6 & H7 & H8 & H9 & H10 & H11 & H12 & H13
        & H14 & H15).
  cbv zeta in *. game_eq; assumption.
Qed.

(** C9 as stated fails: right after the boot the session is in [choice],
    and one frame of 1/32 s moves [bgX] from 0 to -1/16. *)
Lemma paused_frame_scrolls :
  let w := session demoCanvas 0.25 [] in
  reachable w /\ gameState (game w) = choice
  /\ exists g', update (canvas w) (tick ghostDraw 0) (game w) = Some g'
       /\ ~ (bgX g' == bgX (game w))%Q /\ g' <> game w.
Proof.
  intros w.
  split; [apply session_reachable; vm_compute; reflexivity|].
  split; [vm_compute; reflexivity|].
  eexists. split; [vm_compute; reflexivity|].
  assert (Hq : ~ ((-20 # 320) == 0)%Q) by (intros Hq; vm_compute in Hq; discriminate).
  split; [exact Hq|].
  intros Heq. apply Hq. apply (f_equal bgX) in Heq. vm_compute in Heq.
  rewrite Heq. reflexivity.
Qed.

(** C9 (amended) on the frame of the counterexample. *)
Lemma paused_frame_witness :
  exists g',
    update demoCanvas (tick ghostDraw 0) (game (session demoCanvas 0.25 [])) = Some g'
    /\ g' = set_bgX (bgX g') (game (session demoCanvas 0.25 [])).
Proof.
  destruct (update demoCanvas (tick ghostDraw 0) (game (session demoCanvas 0.25 [])))
    as [g'|] eqn:E; [|vm_compute in E; discriminate].
  exists g'. split; [reflexivity|].
  apply (paused_frame demoCanvas (tick ghostDraw 0)
           (game (session demoCanvas 0.25 [])) g').
  - left. vm_compute. reflexivity.
  - exact E.
Defined.

(** ** Collisions and escapes *)

Lemma countb_ext {A} (P : A -> Prop) (p q : A -> bool) (l : list A) :
  (forall a, P a -> p a = q a) -> Forall P l -> countb p l = countb q l.
Proof.
  intros Hpq Hl. unfold countb. f_equal.
  induction Hl as [|a l Ha Hl IH]; cbn [List.filter]; [reflexivity|].
  rewrite (Hpq a Ha). destruct (q a); cbn [length]; congruence.
Qed.

Lemma existsb_ext_Forall {A} (P : A -> Prop) (p q : A -> bool) (l : list A) :
  (forall a, P a -> p a = q a) -> Forall P l -> existsb p l = existsb q l.
Proof.
  intros Hpq Hl.
  induction Hl as [|a l Ha Hl IH]; cbn [existsb]; [reflexivity|].
  rewrite (Hpq a Ha), IH. reflexivity.
Qed.

(** On a monster built by the constructor, the weapon that the collision
    test recomputes is the monster's [required]. *)
Lemma hurts_mismatched h hb m :
  wellFormed m -> hurts h hb m = hits hb m && mismatched h m.
Proof.
  unfold wellFormed, hurts, mismatched, weaponMatches. intros ->. reflexivity.
Qed.

(** The monsters of a frame are well formed when the session's are. *)
Lemma onscreenMonsters_wellFormed cv lv inp g :
  Forall wellFormed (monsters g) ->
  Forall wellFormed (onscreenMonsters cv lv inp g).
Proof.
  intros Hg. unfold onscreenMonsters. apply Forall_filterb.
  unfold movedMonsters. apply Forall_map.
  assert (Hg1 : Forall wellFormed (monsters (afterSpawn cv lv inp g))).
  { destruct (afterSpawn_monsters cv lv inp g) as [(_ & _ & Hm)|(_ & Hm)];
      rewrite Hm; [|assumption].
    apply Forall_app. split; [assumption|].
    constructor; [apply wellFormed_new|constructor]. }
  eapply Forall_impl; [exact Hg1|].
  intros m Hm. apply wellFormed_update. exact Hm.
Qed.

(** C3. In a frame of a reachable session in the [playing] state, the
    monsters that overlap the hero's hit box (after the move, among those
    still on screen) are exactly the ones removed by the collision loop;
    each counts as one defeat; each costs exactly one heart when the
    hero's weapon is not the monster's required weapon and none when it
    is; and a costly collision arms the damage flash at 0.2 s, which the
    same frame runs down by its [delta]. *)
Theorem collisions_resolved w inp lv :
  reachable w -> gameState (game w) = playing ->
  LEVELS !! levelIndex (game w) = Some lv ->
  let g := game w in
  let hb := heroBox g in
  let onscr := onscreenMonsters (canvas w) lv inp g in
  let costs m := hits hb m && mismatched (hero g) m in
  exists g', update (canvas w) inp g = Some g'
    /\ monsters g' = List.filter (misses hb) onscr
    /\ monstersDefeated g' =
         monstersDefeated g
         + countb Monster.offscreen (movedMonsters (canvas w) lv inp g)
         + countb (hits hb) onscr
    /\ hearts g' = hearts g - countb costs onscr
    /\ (existsb costs onscr = true ->
        damageFlash g' =
          if Qle_bool (0.2 - delta inp) 0 then None
          else Some (0.2 - delta inp)%Q).
Proof.
  intros Hw Hp Hlv g hb onscr costs.
  exists (afterChecks (canvas w) lv inp g).
  split; [apply update_playing; assumption|].
  destruct (frame_fields (canvas w) lv inp g)
    as (_ & _ & _ & _ & _ & F6 & F7 & F8).
  pose proof (frame_flash (canvas w) lv inp g) as Ff.
  pose proof (onscreenMonsters_wellFormed (canvas w) lv inp g
                (inv_required _ (reachable_Inv w Hw))) as Hwf.
  fold hb onscr in F6, F7, F8, Ff, Hwf.
  assert (Hc : countb (hurts (hero g) hb) onscr = countb costs onscr)
    by (apply (countb_ext wellFormed); [apply hurts_mismatched|exact Hwf]).
  assert (He : existsb (hurts (hero g) hb) onscr = existsb costs onscr)
    by (apply (existsb_ext_Forall wellFormed); [apply hurts_mismatched|exact Hwf]).
  rewrite Hc in F8. rewrite He in Ff.
  split; [exact F6|]. split; [exact F7|]. split; [exact F8|].
  intros Hx. rewrite Hx in Ff. exact Ff.
Qed.

(** C3 on the frame in which the first ghost of [ghostAhead] meets the
    sword. *)
Lemma collisions_resolved_witness :
  let w := session demoCanvas 0.25 ghostAhead in
  let g := game w in
  let hb := heroBox g in
  let onscr := onscreenMonsters (canvas w) (mkLevel 5 2.0) slowTick g in
  let costs m := hits hb m && mismatched (hero g) m in
  exists g', update (canvas w) slowTick g = Some g'
    /\ monsters g' = List.filter (misses hb) onscr
    /\ monstersDefeated g' =
         monstersDefeated g
         + countb Monster.offscreen (movedMonsters (canvas w) (mkLevel 5 2.0) slowTick g)
         + countb (hits hb) onscr
    /\ hearts g' = hearts g - countb costs onscr
    /\ (existsb costs onscr = true ->
        damageFlash g' =
          if Qle_bool (0.2 - delta slowTick) 0 then None
          else Some (0.2 - delta slowTick)%Q).
Proof.
  apply (collisions_resolved (session demoCanvas 0.25 ghostAhead) slowTick
           (mkLevel 5 2.0)).
  - apply session_reachable; vm_compute; reflexivity.
  - vm_compute. reflexivity.
  - vm_compute. reflexivity.
Defined.

(** C7. In a frame in the [playing] state, every monster that is off
    screen after its move (its right edge left of 0) is removed and
    counted as defeated, and costs no heart: the monsters kept are on
    screen, the defeats of the frame are the escapes plus the collisions,
    and the hearts lost are counted among the monsters still on screen. *)
Theorem escapes_count_as_defeats cv inp g lv :
  LEVELS !! levelIndex g = Some lv -> gameState g = playing ->
  let moved := movedMonsters cv lv inp g in
  let onscr := List.filter onscreen moved in
  let hb := heroBox g in
  exists g', update cv inp g = Some g'
    /\ Forall (fun m => Monster.offscreen m = false) (monsters g')
    /\ monsters g' = List.filter (misses hb) onscr
    /\ monstersDefeated g' =
         monstersDefeated g + countb Monster.offscreen moved
         + countb (hits hb) onscr
    /\ hearts g' = hearts g - countb (hurts (hero g) hb) onscr
    /\ (countb (hits hb) onscr = 0 ->
        hearts g' = hearts g
        /\ monstersDefeated g' = monstersDefeated g + countb Monster.offscreen moved).
Proof.
  intros Hlv Hp moved onscr hb.
  exists (afterChecks cv lv inp g).
  split; [apply update_playing; assumption|].
  destruct (frame_fields cv lv inp g) as (_ & _ & _ & _ & _ & F6 & F7 & F8).
  fold hb in F6, F7, F8. fold moved in F7.
  change (onscreenMonsters cv lv inp g) with onscr in F6, F7, F8.
  split.
  { rewrite F6. apply Forall_filterb.
    pose proof (Forall_filterb_true onscreen moved) as Hon.
    eapply Forall_impl; [exact Hon|].
    intros m Hm. unfold onscreen in Hm. apply negb_true_iff in Hm. exact Hm. }
  split; [exact F6|]. split; [exact F7|]. split; [exact F8|].
  intros Hz. pose proof (countb_hurts_le (hero g) hb onscr).
  pose proof (countb_nonneg (hurts (hero g) hb) onscr). lia.
Qed.

(** C7 on the frame in which the first ghost of [dodgeAhead] leaves the
    screen. *)
Lemma escapes_count_as_defeats_witness :
  let g := game (session demoCanvas 0.25 dodgeAhead) in
  let moved := movedMonsters demoCanvas (mkLevel 5 2.0) dodgeTick g in
  let onscr := List.filter onscreen moved in
  let hb := heroBox g in
  exists g', update demoCanvas dodgeTick g = Some g'
    /\ Forall (fun m => Monster.offscreen m = false) (monsters g')
    /\ monsters g' = List.filter (misses hb) onscr
    /\ monstersDefeated g' =
         monstersDefeated g + countb Monster.offscreen moved
         + countb (hits hb) onscr
    /\ hearts g' = hearts g - countb (hurts (hero g) hb) onscr
    /\ (countb (hits hb) onscr = 0 ->
        hearts g' = hearts g
        /\ monstersDefeated g' = monstersDefeated g + countb Monster.offscreen moved).
Proof.
  apply (escapes_count_as_defeats demoCanvas dodgeTick
           (game (session demoCanvas 0.25 dodgeAhead)) (mkLevel 5 2.0)).
  - vm_compute. reflexivity.
  - vm_compute. reflexivity.
Defined.

(** ** Within a level *)

Lemma handleChoiceSelection_fields left g :
  let g' := handleChoiceSelection left g in
  levelIndex g' = levelIndex g /\ monsters g' = monsters g
  /\ spawnInterval g' = spawnInterval g
  /\ monstersSpawned g' = monstersSpawned g
  /\ monstersToSpawn g' = monstersToSpawn g.
Proof.
  unfold handleChoiceSelection.
  destruct (negb _); unfold_setters; repeat split; reflexivity.
Qed.

(** What a frame does to the spawn counters: it spawns one monster, below
    the quota, or none, and then the list does not grow. *)
Lemma update_spawn cv inp g g' :
  update cv inp g = Some g' ->
  levelIndex g' = levelIndex g /\ monstersToSpawn g' = monstersToSpawn g
  /\ spawnInterval g' = spawnInterval g
  /\ ((monstersSpawned g < monstersToSpawn g
       /\ monstersSpawned g' = monstersSpawned g + 1)
      \/ (monstersSpawned g' = monstersSpawned g
          /\ (length (monsters g') <= length (monsters g))%nat)).
Proof.
  intros H. destruct (update_Some_level _ _ _ _ H) as (lv & Hlv).
  destruct (GameState_eqb (gameState g) playing) eqn:E.
  - apply GameState_eqb_eq in E.
    rewrite (update_playing cv lv inp g Hlv E) in H. injection H as <-.
    destruct (frame_fields cv lv inp g) as (F1 & F2 & F3 & _ & F5 & F6 & _).
    split; [exact F1|]. split; [exact F3|]. split; [exact F2|].
    rewrite F5, F6.
    destruct (afterSpawn_monsters cv lv inp g) as [(Hlt & Hs & _)|(Hs & Hm)].
    + left. split; assumption.
    + right. split; [exact Hs|].
      etransitivity; [apply length_filterb_le|].
      unfold onscreenMonsters.
      etransitivity; [apply length_filterb_le|].
      unfold movedMonsters. rewrite length_map, Hm. reflexivity.
  - assert (Hnp : gameState g <> playing)
      by (intros Hp; apply GameState_eqb_eq in Hp; congruence).
    rewrite (update_paused cv lv inp g Hlv Hnp) in H. injection H as <-.
    destruct (scrollBackground_fields cv (speed lv) (delta inp) g)
      as (H1 & H2 & _ & H4 & H5 & _ & H7 & _).
    cbv zeta in *. rewrite H1, H2, H4, H5, H7.
    repeat split. right. split; reflexivity.
Qed.

(** The same for any event that does not start a level. *)
Lemma quiet_step ev w w' :
  startsLevel ev w = false -> step ev w = Some w' ->
  levelIndex (game w') = levelIndex (game w)
  /\ monstersToSpawn (game w') = monstersToSpawn (game w)
  /\ spawnInterval (game w') = spawnInterval (game w)
  /\ ((monstersSpawned (game w) < monstersToSpawn (game w)
       /\ monstersSpawned (game w') = monstersSpawned (game w) + 1)
      \/ (monstersSpawned (game w') = monstersSpawned (game w)
          /\ (length (monsters (game w')) <= length (monsters (game w)))%nat)).
Proof.
  assert (Hsame : forall g, levelIndex g = levelIndex g
            /\ monstersToSpawn g = monstersToSpawn g
            /\ spawnInterval g = spawnInterval g
            /\ ((monstersSpawned g < monstersToSpawn g
                 /\ monstersSpawned g = monstersSpawned g + 1)
                \/ (monstersSpawned g = monstersSpawned g
                    /\ (length (monsters g) <= length (monsters g))%nat)))
    by (intros g; repeat split; right; split; reflexivity).
  assert (Hpick : forall left g,
            let g' := handleChoiceSelection left g in
            levelIndex g' = levelIndex g
            /\ monstersToSpawn g' = monstersToSpawn g
            /\ spawnInterval g' = spawnInterval g
            /\ ((monstersSpawned g < monstersToSpawn g
                 /\ monstersSpawned g' = monstersSpawned g + 1)
                \/ (monstersSpawned g' = monstersSpawned g
                    /\ (length (monsters g') <= length (monsters g))%nat))).
  { intros left g g'.
    destruct (handleChoiceSelection_fields left g) as (H1 & H2 & H3 & H4 & H5).
    fold g' in H1, H2, H3, H4, H5. rewrite H1, H2, H3, H4, H5.
    repeat split. right. split; reflexivity. }
  destruct ev as [inp|x r|key r|cw ch]; cbn [step startsLevel]; intros Hq Hs.
  - destruct (update (canvas w) inp (game w)) as [g'|] eqn:E; [|discriminate].
    injection Hs as <-. cbn [game]. eapply update_spawn. exact E.
  - unfold onPointerDown in Hs.
    destruct (gameState (game w)); try discriminate;
      injection Hs as <-; cbn [game mbind option_bind]; auto.
  - unfold onKeyDown in Hs.
    destruct (gameState (game w)); try rewrite Hq in Hs;
      try (injection Hs as <-; cbn [game]; auto; fail).
    destruct (_ || _); [|destruct (_ || _)];
      injection Hs as <-; cbn [game]; auto.
  - injection Hs as <-. cbn [game]. auto.
Qed.

Lemma sameLevel_Inv w w' : Inv (game w) -> sameLevel w w' -> Inv (game w').
Proof.
  intros I H. induction H as [|ev w1 w2 _ IH _ Hs]; [exact I|].
  eapply step_Inv; eassumption.
Qed.

(** Within a level the configuration stays and the spawn count stays
    within the quota it started with. *)
Lemma sameLevel_fields w w' :
  sameLevel w w' ->
  monstersSpawned (game w) <= monstersToSpawn (game w) ->
  levelIndex (game w') = levelIndex (game w)
  /\ monstersToSpawn (game w') = monstersToSpawn (game w)
  /\ spawnInterval (game w') = spawnInterval (game w)
  /\ monstersSpawned (game w') <= monstersToSpawn (game w).
Proof.
  intros H H0. induction H as [|ev w1 w2 _ IH Hq Hs].
  - repeat split. exact H0.
  - destruct IH as (I1 & I2 & I3 & I4).
    destruct (quiet_step ev w1 w2 Hq Hs) as (Q1 & Q2 & Q3 & Q4).
    rewrite Q1, Q2, Q3. repeat split; try assumption.
    destruct Q4 as [(Hlt & ->)|(-> & _)]; lia.
Qed.

Lemma sameLevel_first ev w w1 w' :
  startsLevel ev w = false -> step ev w = Some w1 -> sameLevel w1 w' ->
  sameLevel w w'.
Proof.
  intros Hq Hs H. induction H as [|ev' w2 w3 _ IH Hq' Hs'].
  - eapply sameLevel_step; [apply sameLevel_refl|exact Hq|exact Hs].
  - eapply sameLevel_step; [exact IH|exact Hq'|exact Hs'].
Qed.

Lemma runLevel_sameLevel evs w w' : runLevel evs w = Some w' -> sameLevel w w'.
Proof.
  revert w. induction evs as [|ev evs IH]; cbn [runLevel]; intros w H.
  - injection H as <-. apply sameLevel_refl.
  - destruct (startsLevel ev w) eqn:Hq; [discriminate|].
    destruct (step ev w) as [w1|] eqn:Hs; [|discriminate].
    cbn [mbind option_bind] in H.
    eapply sameLevel_first; [exact Hq|exact Hs|apply IH; exact H].
Qed.

Lemma resume_sameLevel w evs : sameLevel w (resume w evs).
Proof.
  unfold resume. destruct (runLevel evs w) as [w'|] eqn:E.
  - apply runLevel_sameLevel with (evs := evs). exact E.
  - apply sameLevel_refl.
Qed.

(** C6. [startLevel(i)] sets the quota to the level's configured count
    and the spawn interval to [max(400, 1000 - 50 i)] milliseconds; as
    long as the level lasts both stay, the monsters spawned never exceed
    the quota, and once they have reached it an event spawns no monster:
    the count stays and the list does not grow. *)
Theorem spawn_quota cv r (i : nat) g0 g lv w ev w' :
  LEVELS !! i = Some lv -> startLevel cv r i g0 = Some g ->
  sameLevel (mkWorld cv g) w ->
  startsLevel ev w = false -> step ev w = Some w' ->
  monstersToSpawn g = monsterCount lv
  /\ spawnInterval g = Z.max 400 (1000 - 50 * Z.of_nat i)
  /\ monstersToSpawn (game w) = monsterCount lv
  /\ spawnInterval (game w) = Z.max 400 (1000 - 50 * Z.of_nat i)
  /\ monstersSpawned (game w) <= monsterCount lv
  /\ monstersSpawned (game w') <= monsterCount lv
  /\ (monstersSpawned (game w) = monsterCount lv ->
      monstersSpawned (game w') = monsterCount lv
      /\ (length (monsters (game w')) <= length (monsters (game w)))%nat).
Proof.
  intros Hlv Hs Hsame Hq Hstep.
  destruct (startLevel_fields _ _ _ _ _ Hs)
    as (lv' & Hlv' & _ & _ & H3 & _ & H5 & H6 & _).
  assert (lv' = lv) by congruence. subst lv'.
  pose proof (LEVELS_count_pos _ _ Hlv) as Hpos.
  assert (H0 : monstersSpawned (game (mkWorld cv g))
               <= monstersToSpawn (game (mkWorld cv g)))
    by (cbn [game]; lia).
  destruct (sameLevel_fields _ _ Hsame H0) as (_ & S2 & S3 & S4).
  cbn [game] in S2, S3, S4.
  destruct (quiet_step ev w w' Hq Hstep) as (_ & Q2 & _ & Q4).
  rewrite S2, S3, H5, H6.
  replace (Z.of_nat i * 50) with (50 * Z.of_nat i) by lia.
  repeat split; lia.
Qed.

(** C6 at level 0, on the frame after [ghostAhead]: the five monsters of
    the level are spawned, the frame spawns none. *)
Lemma spawn_quota_witness :
  let w := resume bootWorld ghostAhead in
  exists w', step (Frame slowTick) w = Some w'
    /\ monstersToSpawn (game bootWorld) = 5
    /\ spawnInterval (game bootWorld) = Z.max 400 (1000 - 50 * Z.of_nat 0)
    /\ monstersToSpawn (game w) = 5
    /\ spawnInterval (game w) = Z.max 400 (1000 - 50 * Z.of_nat 0)
    /\ monstersSpawned (game w) <= 5
    /\ monstersSpawned (game w') <= 5
    /\ (monstersSpawned (game w) = 5 ->
        monstersSpawned (game w') = 5
        /\ (length (monsters (game w')) <= length (monsters (game w)))%nat).
Proof.
  intros w.
  destruct (step (Frame slowTick) w) as [w'|] eqn:E;
    [|vm_compute in E; discriminate].
  exists w'. split; [reflexivity|].
  apply (spawn_quota demoCanvas 0.25 0 Game_new (game bootWorld)
           (mkLevel 5 2.0) w (Frame slowTick) w').
  - reflexivity.
  - vm_compute. reflexivity.
  - apply (resume_sameLevel bootWorld ghostAhead).
  - reflexivity.
  - exact E.
Defined.

(** ** The next choice *)

(** C5, as the code has it. [startLevel] sets the choice threshold to
    [min(3, quota)]. In a frame of that level in the [playing] state (no
    choice is pending then), when the defeats at the end of the frame have
    reached the threshold and are still below the quota, the choice is
    marked pending and the threshold advances by 3, capped at the quota;
    the frame ends in [choice] if a heart is left, and in [gameOver] if
    none is. *)
Theorem choice_threshold cv r (i : nat) g0 gs lv w inp g' :
  LEVELS !! i = Some lv -> startLevel cv r i g0 = Some gs ->
  sameLevel (mkWorld cv gs) w ->
  gameState (game w) = playing ->
  update (canvas w) inp (game w) = Some g' ->
  nextChoiceAt (game w) <= monstersDefeated g' < monsterCount lv ->
  nextChoiceAt gs = Z.min 3 (monsterCount lv)
  /\ choiceActive (game w) = false
  /\ choiceActive g' = true
  /\ nextChoiceAt g' = Z.min (nextChoiceAt (game w) + 3) (monsterCount lv)
  /\ gameState g' = (if hearts g' <=? 0 then gameOver else choice).
Proof.
  intros Hlv Hs Hsame Hp Hu Hdue.
  destruct (startLevel_fields _ _ _ _ _ Hs)
    as (lv' & Hlv' & _ & _ & H3 & _ & H5 & _ & H7 & _).
  assert (lv' = lv) by congruence. subst lv'.
  pose proof (LEVELS_count_pos _ _ Hlv) as Hpos.
  assert (H0 : monstersSpawned (game (mkWorld cv gs))
               <= monstersToSpawn (game (mkWorld cv gs)))
    by (cbn [game]; lia).
  destruct (sameLevel_fields _ _ Hsame H0) as (_ & S2 & _).
  cbn [game] in S2. rewrite H5 in S2.
  assert (I : Inv (game w)).
  { apply (sameLevel_Inv (mkWorld cv gs)); [|exact Hsame].
    cbn [game]. eapply startLevel_Inv. exact Hs. }
  pose proof (inv_choice _ I Hp) as Hca.
  destruct (update_playing_inv _ _ _ _ Hp Hu) as (lv2 & Hlv2 & ->).
  destruct (frame_fields (canvas w) lv2 inp (game w)) as (_ & _ & F3 & _).
  destruct (frame_machine (canvas w) lv2 inp (game w) Hp) as (Ms & Ma & Mn).
  rewrite F3, S2 in Ms, Ma, Mn.
  set (g' := afterChecks (canvas w) lv2 inp (game w)) in *.
  assert (Hnd : levelDone g' = false).
  { unfold levelDone. rewrite F3, S2.
    destruct (Z.geb_spec (monstersDefeated g') (monsterCount lv)); [lia|].
    reflexivity. }
  assert (Hd : negb (choiceActive (game w))
               && (monstersDefeated g' >=? nextChoiceAt (game w))
               && (monstersDefeated g' <? monsterCount lv) = true).
  { rewrite Hca. cbn [negb andb].
    apply andb_true_iff. split; [apply Z.geb_le|apply Z.ltb_lt]; lia. }
  rewrite Hnd, Hd in Ms. rewrite Hd in Ma, Mn.
  repeat split; assumption.
Qed.

(** C5 (amended) at level 0, quota 5: the third beast of
    [thirdBeastAhead] falls to the sword in the next frame; the threshold
    is 3, the frame ends in [choice] and the threshold becomes 5. *)
Lemma choice_threshold_witness :
  let w := resume bootWorld thirdBeastAhead in
  exists g', update (canvas w) slowBeast (game w) = Some g'
    /\ nextChoiceAt (game w) = 3 /\ monstersDefeated g' = 3
    /\ gameState g' = choice /\ nextChoiceAt g' = 5.
Proof.
  intros w.
  destruct (update (canvas w) slowBeast (game w)) as [g'|] eqn:E;
    [|vm_compute in E; discriminate].
  exists g'. split; [reflexivity|].
  assert (Hn : nextChoiceAt (game w) = 3) by (vm_compute; reflexivity).
  assert (Hd : monstersDefeated g' = 3)
    by (vm_compute in E; injection E as <-; vm_compute; reflexivity).
  assert (Hh : hearts g' = 3)
    by (vm_compute in E; injection E as <-; vm_compute; reflexivity).
  destruct (choice_threshold demoCanvas 0.25 0 Game_new (game bootWorld)
              (mkLevel 5 2.0) w slowBeast g') as (_ & _ & _ & Hn' & Hs).
  - reflexivity.
  - vm_compute. reflexivity.
  - apply (resume_sameLevel bootWorld thirdBeastAhead).
  - vm_compute. reflexivity.
  - exact E.
  - rewrite Hn, Hd. cbn. lia.
  - rewrite Hh in Hs. rewrite Hn in Hn'.
    repeat split; assumption.
Defined.

(** C5 as stated fails: in the session [twoGhostsIn] (level 0, quota 5,
    threshold 3, no choice pending) two ghosts have cost the
    sword-bearing hero a heart each, and the third arrives in the next
    frame; that frame brings the defeats to the threshold, below the
    quota, and ends in [gameOver], not in [choice]. *)
Lemma choice_preempted_by_gameOver :
  let w := session demoCanvas 0.25 twoGhostsIn in
  reachable w
  /\ gameState (game w) = playing /\ choiceActive (game w) = false
  /\ monstersDefeated (game w) = 2 /\ nextChoiceAt (game w) = 3
  /\ monstersToSpawn (game w) = 5
  /\ exists g', update (canvas w) (tick ghostDraw 0) (game w) = Some g'
       /\ monstersDefeated g' = 3 /\ gameState g' = gameOver
       /\ gameState g' <> choice.
Proof.
  cbv zeta.
  assert (H : frameReport (tick ghostDraw 0) (session demoCanvas 0.25 twoGhostsIn)
              = Some ((playing, 1, 2, 3, false, 5), (gameOver, 0, 3, 5, true, 5)))
    by (vm_compute; reflexivity).
  apply frameReport_inv in H.
  destruct H as ((H1 & _ & H3 & H4 & H5 & H6) & g' & E & H7 & _ & H9 & _).
  split; [apply session_reachable; vm_compute; reflexivity|].
  split; [exact H1|]. split; [exact H5|].
  split; [exact H3|]. split; [exact H4|]. split; [exact H6|].
  exists g'. split; [exact E|]. split; [exact H9|]. split; [exact H7|].
  rewrite H7. discriminate.
Qed.

(** * Further properties of the session *)

(** ** Handlers and errors *)

(** X1. In a reachable session no handler throws, whatever the event:
    [update] finds its level and every [monsters[i]] it reads, and
    [startLevel] is only called with an index of the table. *)
Theorem handlers_never_throw w ev :
  reachable w -> exists w', step ev w = Some w'.
Proof.
  intros Hw. apply step_total. apply reachable_Inv. exact Hw.
Qed.

(** X1 on a frame of ten seconds right after the boot. *)
Lemma handlers_never_throw_witness :
  exists w', step (Frame (mkFrame 10 0 0 0)) bootWorld = Some w'.
Proof.
  apply (handlers_never_throw bootWorld (Frame (mkFrame 10 0 0 0))).
  apply session_reachable; vm_compute; reflexivity.
Defined.

(** X2. [update] throws exactly when [levelIndex] is not an index of
    [LEVELS]: the two loops over the monsters, which splice while they
    iterate downwards, never read past the array. *)
Theorem update_throws_iff cv inp g :
  update cv inp g = None <-> (length LEVELS <= levelIndex g)%nat.
Proof.
  rewrite <- lookup_ge_None.
  destruct (LEVELS !! levelIndex g) as [lv|] eqn:Hlv.
  - split; [|discriminate].
    destruct (GameState_eqb (gameState g) playing) eqn:E.
    + apply GameState_eqb_eq in E.
      rewrite (update_playing cv lv inp g Hlv E). discriminate.
    + rewrite (update_paused cv lv inp g Hlv); [discriminate|].
      intros Hp. apply GameState_eqb_eq in Hp. congruence.
  - split; [reflexivity|]. intros _. unfold update. rewrite Hlv. reflexivity.
Qed.

(** ** What a frame leaves alone *)

(** The fields that only the state machine and the handlers write. *)
Lemma spawnStep_ui cv inp g :
  let g' := spawnStep cv inp g in
  leftOption g' = leftOption g /\ rightOption g' = rightOption g
  /\ damageFlash g' = damageFlash g /\ nextChoiceAt g' = nextChoiceAt g
  /\ hero g' = hero g /\ bgX g' = bgX g.
Proof.
  unfold spawnStep, spawnMonster.
  destruct (_ && _); unfold_setters; repeat split; reflexivity.
Qed.

Lemma afterCollide_ui cv lv inp g :
  let c := afterCollide cv lv inp g in
  leftOption c = leftOption g /\ rightOption c = rightOption g
  /\ hero c = hero g
  /\ bgX c = bgX (scrollBackground cv (speed lv) (delta inp) g)
  /\ spawnTimer c = spawnTimer (afterSpawn cv lv inp g).
Proof.
  destruct (scrollBackground_fields cv (speed lv) (delta inp) g)
    as (_ & _ & _ & _ & _ & _ & _ & _ & _ & S10 & _ & _ & S13 & S14 & _).
  destruct (spawnStep_ui cv inp (scrollBackground cv (speed lv) (delta inp) g))
    as (P1 & P2 & _ & _ & P5 & P6).
  cbv zeta in *.
  unfold afterCollide, collided, afterMove. unfold_setters.
  unfold afterSpawn. rewrite P1, P2, P5, P6, S10, S13, S14.
  repeat split; reflexivity.
Qed.

Lemma flashTimer_ui d g :
  leftOption (flashTimer d g) = leftOption g
  /\ rightOption (flashTimer d g) = rightOption g.
Proof.
  unfold flashTimer. destruct (damageFlash g); [|split; reflexivity].
  destruct (Qle_bool _ _); split; reflexivity.
Qed.

Lemma randomizeChoices_offer r g :
  (leftOption (randomizeChoices r g) = sword
   /\ rightOption (randomizeChoices r g) = magic)
  \/ (leftOption (randomizeChoices r g) = magic
      /\ rightOption (randomizeChoices r g) = sword).
Proof.
  unfold randomizeChoices. destruct (Qlt_bool r 0.5); [left|right];
    split; reflexivity.
Qed.

Lemma checks_offer r g :
  let g' := checkLevelEnd (checkGameOver (checkChoice r g)) in
  (leftOption g' = leftOption g /\ rightOption g' = rightOption g)
  \/ (leftOption g' = sword /\ rightOption g' = magic)
  \/ (leftOption g' = magic /\ rightOption g' = sword).
Proof.
  cbv zeta. unfold checkLevelEnd, checkGameOver.
  set (g1 := checkChoice r g).
  assert (H1 : (leftOption g1 = leftOption g /\ rightOption g1 = rightOption g)
               \/ (leftOption g1 = sword /\ rightOption g1 = magic)
               \/ (leftOption g1 = magic /\ rightOption g1 = sword)).
  { subst g1. unfold checkChoice.
    destruct (_ && _); [|left; split; reflexivity].
    right. unfold_setters.
    apply (randomizeChoices_offer r
             (set_gameState choice (set_choiceActive true g))). }
  clearbody g1.
  destruct (hearts g1 <=? 0); unfold_setters;
    destruct (_ && _); unfold_setters; exact H1.
Qed.

(** A frame keeps the options on offer or draws them anew. *)
Lemma update_offer cv inp g g' :
  update cv inp g = Some g' ->
  (leftOption g' = leftOption g /\ rightOption g' = rightOption g)
  \/ (leftOption g' = sword /\ rightOption g' = magic)
  \/ (leftOption g' = magic /\ rightOption g' = sword).
Proof.
  intros H. destruct (update_Some_level _ _ _ _ H) as (lv & Hlv).
  destruct (GameState_eqb (gameState g) playing) eqn:E.
  - apply GameState_eqb_eq in E.
    rewrite (update_playing cv lv inp g Hlv E) in H. injection H as <-.
    unfold afterChecks.
    destruct (afterCollide_ui cv lv inp g) as (C1 & C2 & _).
    destruct (flashTimer_ui (delta inp) (afterCollide cv lv inp g)) as (F1 & F2).
    cbv zeta in C1, C2. rewrite <- C1, <- C2, <- F1, <- F2.
    apply checks_offer.
  - assert (Hnp : gameState g <> playing)
      by (intros Hp; apply GameState_eqb_eq in Hp; congruence).
    rewrite (update_paused cv lv inp g Hlv Hnp) in H. injection H as <-.
    destruct (scrollBackground_fields cv (speed lv) (delta inp) g)
      as (_ & _ & _ & _ & _ & _ & _ & _ & _ & _ & _ & _ & S13 & S14 & _).
    left. split; assumption.
Qed.

(** ** The second invariant is kept *)

Lemma startLevel_ui cv r i g g' :
  startLevel cv r i g = Some g' ->
  damageFlash g' = damageFlash g /\ leftOption g' <> rightOption g'.
Proof.
  unfold startLevel. destruct (LEVELS !! i) as [lv|]; [|discriminate].
  intros [= <-]. unfold randomizeChoices.
  destruct (Qlt_bool r 0.5); unfold_setters; split;
    try reflexivity; discriminate.
Qed.

Lemma startLevel_Inv2 cv r i g g' :
  Inv2 g -> startLevel cv r i g = Some g' -> Inv2 g'.
Proof.
  intros I H.
  destruct (startLevel_ui _ _ _ _ _ H) as (Hf & Ho).
  destruct (startLevel_fields _ _ _ _ _ H)
    as (lv & Hlv & _ & _ & _ & _ & H5 & _ & H7 & _).
  pose proof (LEVELS_count_pos _ _ Hlv) as Hpos.
  constructor.
  - exact Ho.
  - rewrite Hf. apply (inv2_flash g I).
  - rewrite H7, H5. lia.
  - right. exists 1. rewrite H7. lia.
Qed.

Lemma handleChoiceSelection_ui left g :
  let g' := handleChoiceSelection left g in
  leftOption g' = leftOption g /\ rightOption g' = rightOption g
  /\ damageFlash g' = damageFlash g /\ nextChoiceAt g' = nextChoiceAt g
  /\ monstersToSpawn g' = monstersToSpawn g.
Proof.
  unfold handleChoiceSelection.
  destruct (negb _); unfold_setters; repeat split; reflexivity.
Qed.

Lemma handleChoiceSelection_Inv2 left g :
  Inv2 g -> Inv2 (handleChoiceSelection left g).
Proof.
  intros I.
  destruct (handleChoiceSelection_ui left g) as (H1 & H2 & H3 & H4 & H5).
  cbv zeta in *. destruct I.
  constructor; rewrite ?H1, ?H2, ?H3, ?H4, ?H5; assumption.
Qed.

(** The flash after one run of the timer. *)
Lemma flash_step_bounds (old : option Q) (d f' : Q) :
  (0 <= d)%Q ->
  (forall f, old = Some f -> (0 < f /\ f <= 0.2)%Q) ->
  match old with
  | None => None
  | Some f => if Qle_bool (f - d) 0 then None else Some (f - d)%Q
  end = Some f' ->
  (0 < f' /\ f' <= 0.2)%Q.
Proof.
  intros Hd Hold. destruct old as [f|]; [|discriminate].
  destruct (Hold f eq_refl) as (H0 & H1).
  destruct (Qle_bool (f - d) 0) eqn:E; [discriminate|].
  intros [= <-].
  assert (Hn : ~ (f - d <= 0)%Q)
    by (intros Hle; apply Qle_bool_iff in Hle; congruence).
  split; lra.
Qed.

Lemma update_Inv2 cv inp g g' :
  (0 <= delta inp)%Q -> Inv2 g -> update cv inp g = Some g' -> Inv2 g'.
Proof.
  intros Hd I H.
  pose proof (update_offer _ _ _ _ H) as Ho.
  destruct (update_Some_level _ _ _ _ H) as (lv & Hlv).
  destruct (GameState_eqb (gameState g) playing) eqn:E.
  - apply GameState_eqb_eq in E.
    rewrite (update_playing cv lv inp g Hlv E) in H. injection H as <-.
    destruct (frame_fields cv lv inp g) as (_ & _ & F3 & _).
    destruct (frame_machine cv lv inp g E) as (_ & _ & Mn).
    pose proof (frame_flash cv lv inp g) as Ff.
    set (g' := afterChecks cv lv inp g) in *.
    destruct I as [Io If In Ik].
    constructor.
    + destruct Ho as [(-> & ->)|[(-> & ->)|(-> & ->)]];
        [exact Io|discriminate|discriminate].
    + intros f' Hf'. rewrite Ff in Hf'.
      eapply flash_step_bounds; [exact Hd| |exact Hf'].
      destruct (existsb _ _); [|exact If].
      intros f [= <-]. split; lra.
    + rewrite Mn. destruct (_ && _) eqn:Edue; rewrite F3; lia.
    + rewrite Mn. destruct (_ && _) eqn:Edue; rewrite F3.
      * apply andb_true_iff in Edue. destruct Edue as (Edue & Hlt).
        apply andb_true_iff in Edue. destruct Edue as (_ & Hge).
        apply Z.geb_le in Hge. apply Z.ltb_lt in Hlt. rewrite F3 in Hlt.
        destruct Ik as [Heq|(k & Hk)]; [lia|].
        destruct (Z.min_spec (nextChoiceAt g + 3) (monstersToSpawn g))
          as [(_ & ->)|(_ & ->)].
        -- right. exists (k + 1). lia.
        -- left. reflexivity.
      * exact Ik.
  - assert (Hnp : gameState g <> playing)
      by (intros Hp; apply GameState_eqb_eq in Hp; congruence).
    rewrite (update_paused cv lv inp g Hlv Hnp) in H. injection H as <-.
    destruct (scrollBackground_fields cv (speed lv) (delta inp) g)
      as (_ & _ & _ & _ & _ & _ & S7 & S8 & _ & _ & _ & _ & S13 & S14 & S15).
    cbv zeta in *. destruct I.
    constructor; rewrite ?S7, ?S8, ?S13, ?S14, ?S15; assumption.
Qed.

Lemma advanceLevel_Inv2 cv r g g' :
  Inv2 g -> advanceLevel cv r g = Some g' -> Inv2 g'.
Proof.
  intros I. unfold advanceLevel. destruct (_ <? _)%nat;
    apply startLevel_Inv2; exact I.
Qed.

Lemma step_Inv2 ev w w' :
  event_ok ev -> Inv2 (game w) -> step ev w = Some w' -> Inv2 (game w').
Proof.
  intros Hok I. destruct ev as [inp|x r|key r|cw ch]; cbn [step].
  - destruct (update (canvas w) inp (game w)) as [g'|] eqn:E; [|discriminate].
    intros [= <-]. eapply update_Inv2; [apply Hok|exact I|exact E].
  - destruct (onPointerDown (canvas w) x r (game w)) as [g'|] eqn:E;
      [|discriminate].
    intros [= <-]. cbn [game]. unfold onPointerDown in E.
    destruct (gameState (game w)).
    + injection E as <-. exact I.
    + injection E as <-. apply handleChoiceSelection_Inv2. exact I.
    + injection E as <-. exact I.
    + eapply advanceLevel_Inv2; eassumption.
    + eapply startLevel_Inv2; eassumption.
  - destruct (onKeyDown (canvas w) key r (game w)) as [g'|] eqn:E;
      [|discriminate].
    intros [= <-]. cbn [game]. unfold onKeyDown in E.
    destruct (gameState (game w)).
    + injection E as <-. exact I.
    + destruct (_ || _); [|destruct (_ || _)]; injection E as <-;
        try apply handleChoiceSelection_Inv2; exact I.
    + injection E as <-. exact I.
    + destruct (_ || _); [eapply advanceLevel_Inv2; eassumption|].
      injection E as <-. exact I.
    + destruct (_ || _); [eapply startLevel_Inv2; eassumption|].
      injection E as <-. exact I.
  - intros [= <-]. exact I.
Qed.

Lemma Game_new_Inv2_flash f : damageFlash Game_new = Some f -> (0 < f /\ f <= 0.2)%Q.
Proof. discriminate. Qed.

Lemma reachable_Inv2 w : reachable w -> Inv2 (game w).
Proof.
  induction 1 as [cv r w _ _ Hb|ev w w' _ IH Hok Hs].
  - unfold boot in Hb.
    destruct (startLevel cv r 0 Game_new) as [g|] eqn:E; [|discriminate].
    injection Hb as <-. cbn [game].
    destruct (startLevel_ui _ _ _ _ _ E) as (Hf & Ho).
    destruct (startLevel_fields _ _ _ _ _ E)
      as (lv & Hlv & _ & _ & _ & _ & H5 & _ & H7 & _).
    pose proof (LEVELS_count_pos _ _ Hlv) as Hpos.
    constructor.
    + exact Ho.
    + rewrite Hf. apply Game_new_Inv2_flash.
    + rewrite H7, H5. lia.
    + right. exists 1. rewrite H7. lia.
  - eapply step_Inv2; eassumption.
Qed.

(** ** Choices *)

(** X3. In every reachable session in the [choice] state the two options
    on offer are the two weapons: picking the left side equips
    [leftOption], picking the right side equips [rightOption], the two
    differ, and either pick clears the pending choice and resumes
    [playing]. *)
Theorem choice_offers_both_weapons w (left : bool) :
  reachable w -> gameState (game w) = choice ->
  let pick side := handleChoiceSelection side (game w) in
  Hero.weapon (hero (pick true)) = leftOption (game w)
  /\ Hero.weapon (hero (pick false)) = rightOption (game w)
  /\ Hero.weapon (hero (pick true)) <> Hero.weapon (hero (pick false))
  /\ gameState (pick left) = playing /\ choiceActive (pick left) = false.
Proof.
  intros Hw Hc pick. subst pick. cbv beta.
  pose proof (inv2_options _ (reachable_Inv2 w Hw)) as Ho.
  unfold handleChoiceSelection. rewrite Hc. cbn [GameState_eqb negb].
  unfold_setters. cbn [Hero.set_weapon Hero.weapon].
  repeat split; assumption.
Qed.

(** X3 right after the boot. *)
Lemma choice_offers_both_weapons_witness :
  let pick side := handleChoiceSelection side (game bootWorld) in
  Hero.weapon (hero (pick true)) = leftOption (game bootWorld)
  /\ Hero.weapon (hero (pick false)) = rightOption (game bootWorld)
  /\ Hero.weapon (hero (pick true)) <> Hero.weapon (hero (pick false))
  /\ gameState (pick true) = playing /\ choiceActive (pick true) = false.
Proof.
  apply (choice_offers_both_weapons bootWorld true).
  - apply session_reachable; vm_compute; reflexivity.
  - vm_compute. reflexivity.
Defined.

(** ** The damage flash *)

(** X4. In every reachable session a running damage flash has more than
    0 and at most 0.2 seconds left: it is armed at 0.2, only runs down,
    and is cleared as soon as it reaches 0. *)
Theorem damageFlash_bounds w f :
  reachable w -> damageFlash (game w) = Some f -> (0 < f /\ f <= 0.2)%Q.
Proof.
  intros Hw. apply (inv2_flash _ (reachable_Inv2 w Hw)).
Qed.

(** ** The choice threshold *)

(** X5. In every reachable session the choice threshold lies between 3
    and the quota and is a multiple of 3 or the quota itself; and a choice
    can only fall due while the threshold is below the quota, so the
    threshold that has reached the quota triggers no further choice. *)
Theorem nextChoiceAt_shape w :
  reachable w ->
  3 <= nextChoiceAt (game w) <= monstersToSpawn (game w)
  /\ (nextChoiceAt (game w) = monstersToSpawn (game w)
      \/ exists k, nextChoiceAt (game w) = 3 * k)
  /\ (choiceDue (game w) = true ->
      nextChoiceAt (game w) < monstersToSpawn (game w)).
Proof.
  intros Hw. destruct (reachable_Inv2 w Hw) as [_ _ Hn Hk].
  split; [exact Hn|]. split; [exact Hk|].
  unfold choiceDue. rewrite !andb_true_iff, Z.geb_le, Z.ltb_lt. lia.
Qed.

(** X4 after a ghost has hit the sword-bearing hero in a frame of 1/8 s:
    the flash has 0.075 s left. *)
Lemma damageFlash_bounds_witness :
  exists f,
    damageFlash (game (session demoCanvas 0.25 flashRunning)) = Some f
    /\ (0 < f /\ f <= 0.2)%Q.
Proof.
  eexists. split; [vm_compute; reflexivity|].
  apply (damageFlash_bounds (session demoCanvas 0.25 flashRunning)).
  - apply session_reachable; vm_compute; reflexivity.
  - vm_compute. reflexivity.
Defined.

(** X5 after the first choice of level 0 has fallen due: the threshold is
    the quota, 5. *)
Lemma nextChoiceAt_shape_witness :
  let w := session demoCanvas 0.25 (thirdBeastAhead ++ [Frame slowBeast]) in
  3 <= nextChoiceAt (game w) <= monstersToSpawn (game w)
  /\ (nextChoiceAt (game w) = monstersToSpawn (game w)
      \/ exists k, nextChoiceAt (game w) = 3 * k)
  /\ (choiceDue (game w) = true ->
      nextChoiceAt (game w) < monstersToSpawn (game w)).
Proof.
  apply (nextChoiceAt_shape
           (session demoCanvas 0.25 (thirdBeastAhead ++ [Frame slowBeast]))).
  apply session_reachable; vm_compute; reflexivity.
Defined.

(** ** Taps and keys *)

Lemma advanceLevel_fields cv r g g' :
  (levelIndex g < length LEVELS)%nat -> advanceLevel cv r g = Some g' ->
  levelIndex g' = ((levelIndex g + 1) mod length LEVELS)%nat
  /\ gameState g' = choice /\ hearts g' = 3.
Proof.
  intros Hi. unfold advanceLevel.
  destruct (levelIndex g <? length LEVELS - 1)%nat eqn:E; intros H;
    destruct (startLevel_fields _ _ _ _ _ H)
      as (lv & _ & H1 & _ & _ & _ & _ & _ & _ & H8 & _ & H10 & _);
    (split; [|split; assumption]); rewrite H1.
  - apply Nat.ltb_lt in E. change (length LEVELS) with 10%nat in *.
    rewrite Nat.mod_small by lia. reflexivity.
  - apply Nat.ltb_ge in E. change (length LEVELS) with 10%nat in *.
    replace (levelIndex g) with 9%nat by lia. reflexivity.
Qed.

(** X6. A tap in a reachable session: in [levelEnd] it starts the next
    level, the first one after the last (index [(levelIndex + 1) mod
    10]); in [gameOver] it starts level 0; both with 3 hearts, in
    [choice]; in [choice] it resolves the choice and resumes [playing];
    in [playing] it does nothing. It never throws. *)
Theorem tap_moves_on w x r :
  reachable w ->
  exists g', onPointerDown (canvas w) x r (game w) = Some g'
    /\ match gameState (game w) with
       | levelEnd =>
           levelIndex g' = ((levelIndex (game w) + 1) mod length LEVELS)%nat
           /\ gameState g' = choice /\ hearts g' = 3
       | gameOver => levelIndex g' = 0%nat /\ gameState g' = choice /\ hearts g' = 3
       | choice => gameState g' = playing /\ levelIndex g' = levelIndex (game w)
       | _ => g' = game w
       end.
Proof.
  intros Hw. destruct (inv_level _ (reachable_Inv w Hw)) as (lv & Hlv & _).
  apply lookup_lt_Some in Hlv.
  destruct (onPointerDown_total (canvas w) x r (game w)) as (g' & E).
  exists g'. split; [exact E|]. unfold onPointerDown in E.
  destruct (gameState (game w)) eqn:Es.
  - congruence.
  - injection E as <-. unfold handleChoiceSelection. rewrite Es.
    cbn [GameState_eqb negb]. unfold_setters. split; reflexivity.
  - congruence.
  - apply (advanceLevel_fields _ _ _ _ Hlv E).
  - destruct (startLevel_fields _ _ _ _ _ E)
      as (lv' & _ & H1 & _ & _ & _ & _ & _ & _ & H8 & _ & H10 & _).
    repeat split; assumption.
Qed.

(** X6 on the session [levelWon], which has completed level 0. *)
Lemma tap_moves_on_witness :
  exists g', onPointerDown demoCanvas 5 0.75 (game (session demoCanvas 0.25 levelWon))
             = Some g'
    /\ levelIndex g' = 1%nat /\ gameState g' = choice /\ hearts g' = 3.
Proof.
  destruct (tap_moves_on (session demoCanvas 0.25 levelWon) 5 0.75)
    as (g' & E & H).
  - apply session_reachable; vm_compute; reflexivity.
  - exists g'. split; [exact E|].
    assert (Hs : gameState (game (session demoCanvas 0.25 levelWon)) = levelEnd)
      by (vm_compute; reflexivity).
    rewrite Hs in H. exact H.
Defined.

(** X7. The keyboard does what a tap does and nothing else: in [choice],
    ArrowLeft or a is a tap on the left half, ArrowRight or d a tap on the
    right half, any other key is ignored; in every other state, space or
    Enter is a tap and any other key is ignored. *)
Theorem keyboard_mirrors_tap cv key r g (xl xr : Q) :
  (xl < cwidth cv / 2)%Q -> ~ (xr < cwidth cv / 2)%Q ->
  onKeyDown cv key r g =
    match gameState g with
    | choice =>
        if isLeftKey key then onPointerDown cv xl r g
        else if isRightKey key then onPointerDown cv xr r g
        else Some g
    | _ => if isGoKey key then onPointerDown cv xl r g else Some g
    end.
Proof.
  intros Hl Hr.
  assert (El : Qlt_bool xl (cwidth cv / 2) = true) by (apply Qlt_bool_iff; exact Hl).
  assert (Er : Qlt_bool xr (cwidth cv / 2) = false).
  { destruct (Qlt_bool xr (cwidth cv / 2)) eqn:E; [|reflexivity].
    apply Qlt_bool_iff in E. contradiction. }
  unfold onKeyDown, onPointerDown, isLeftKey, isRightKey, isGoKey.
  destruct (gameState g); rewrite ?El, ?Er;
    repeat (match goal with |- context [if ?c then _ else _] => destruct c end);
    reflexivity.
Qed.

(** X7 on a canvas of width 1600, with taps at 100 and 1500. *)
Lemma keyboard_mirrors_tap_witness :
  onKeyDown demoCanvas "d" 0.25 (game bootWorld)
  = onPointerDown demoCanvas 1500 0.25 (game bootWorld).
Proof.
  rewrite (keyboard_mirrors_tap demoCanvas "d" 0.25 (game bootWorld) 100 1500).
  - reflexivity.
  - vm_compute. reflexivity.
  - vm_compute. discriminate.
Defined.

(** ** The level table *)

Lemma LEVELS_speed_pos i lv : LEVELS !! i = Some lv -> (0 < speed lv)%Q.
Proof.
  intros H.
  do 10 (destruct i as [|i]; [inversion H; subst; reflexivity|]).
  inversion H.
Qed.

(** X8. Each level is harder than the one before: more monsters, a
    higher speed and a shorter spawn interval; the interval of level [i]
    is [1000 - 50 i] milliseconds, so that the floor of 400 in
    [startLevel] is never reached by a level of the table. *)
Theorem levels_get_harder cv r (i : nat) g lv lv' g1 g2 :
  LEVELS !! i = Some lv -> LEVELS !! S i = Some lv' ->
  startLevel cv r i g = Some g1 -> startLevel cv r (S i) g = Some g2 ->
  monstersToSpawn g1 < monstersToSpawn g2
  /\ (speed lv < speed lv')%Q
  /\ spawnInterval g2 < spawnInterval g1
  /\ spawnInterval g1 = 1000 - 50 * Z.of_nat i
  /\ 400 < spawnInterval g2.
Proof.
  intros Hlv Hlv' H1 H2.
  destruct (startLevel_fields _ _ _ _ _ H1)
    as (l1 & Hl1 & _ & _ & _ & _ & T1 & I1 & _).
  destruct (startLevel_fields _ _ _ _ _ H2)
    as (l2 & Hl2 & _ & _ & _ & _ & T2 & I2 & _).
  assert (l1 = lv) by congruence. assert (l2 = lv') by congruence. subst l1 l2.
  rewrite T1, T2, I1, I2.
  assert (Hi : (i < 9)%nat).
  { apply lookup_lt_Some in Hlv'. change (length LEVELS) with 10%nat in Hlv'. lia. }
  clear H1 H2 Hl1 Hl2 T1 T2 I1 I2.
  do 9 (destruct i as [|i];
        [inversion Hlv; inversion Hlv'; subst; cbn [monsterCount speed];
         repeat split; try lia; reflexivity|]).
  lia.
Qed.

(** X8 between levels 8 and 9, the last two. *)
Lemma levels_get_harder_witness :
  exists g1 g2,
    startLevel demoCanvas 0.25 8 Game_new = Some g1
    /\ startLevel demoCanvas 0.25 9 Game_new = Some g2
    /\ monstersToSpawn g1 < monstersToSpawn g2
    /\ (4.3 < 4.6)%Q
    /\ spawnInterval g2 < spawnInterval g1
    /\ spawnInterval g1 = 1000 - 50 * Z.of_nat 8
    /\ 400 < spawnInterval g2.
Proof.
  eexists. eexists. split; [vm_compute; reflexivity|].
  split; [vm_compute; reflexivity|].
  apply (levels_get_harder demoCanvas 0.25 8 Game_new
           (mkLevel 22 4.3) (mkLevel 25 4.6)); reflexivity.
Defined.

(** ** The background *)

Lemma update_bgX cv inp g g' lv :
  LEVELS !! levelIndex g = Some lv -> update cv inp g = Some g' ->
  bgX g' = bgX (scrollBackground cv (speed lv) (delta inp) g)
  /\ hero g' = hero g.
Proof.
  intros Hlv H.
  destruct (GameState_eqb (gameState g) playing) eqn:E.
  - apply GameState_eqb_eq in E.
    rewrite (update_playing cv lv inp g Hlv E) in H. injection H as <-.
    unfold afterChecks.
    destruct (checks_spec (r_choice inp)
                (flashTimer (delta inp) (afterCollide cv lv inp g)))
      as ((_ & _ & _ & _ & _ & _ & _ & _ & C9 & C10) & _).
    destruct (flashTimer_core (delta inp) (afterCollide cv lv inp g))
      as (_ & _ & _ & _ & _ & _ & _ & _ & F9 & F10).
    destruct (afterCollide_ui cv lv inp g) as (_ & _ & A3 & A4 & _).
    cbv zeta in *. rewrite C9, C10, F9, F10, A3, A4. split; reflexivity.
  - assert (Hnp : gameState g <> playing)
      by (intros Hp; apply GameState_eqb_eq in Hp; congruence).
    rewrite (update_paused cv lv inp g Hlv Hnp) in H. injection H as <-.
    split; [reflexivity|]. apply hero_scrollBackground.
Qed.

(** X9. The background offset stays in [(-width, 0]]: a frame (in any
    state) moves it left by [speed * delta] and wraps it once by the
    canvas width, which is enough as long as the frame scrolls less than
    one canvas width. *)
Theorem background_wraps cv inp g g' lv :
  LEVELS !! levelIndex g = Some lv -> update cv inp g = Some g' ->
  (0 <= delta inp)%Q -> (speed lv * delta inp < cwidth cv)%Q ->
  (- cwidth cv < bgX g /\ bgX g <= 0)%Q ->
  (- cwidth cv < bgX g' /\ bgX g' <= 0)%Q
  /\ (bgX g' == bgX g - speed lv * delta inp
      \/ bgX g' == bgX g - speed lv * delta inp + cwidth cv)%Q.
Proof.
  intros Hlv H Hd Hs (Hlo & Hhi).
  destruct (update_bgX _ _ _ _ _ Hlv H) as (-> & _).
  pose proof (LEVELS_speed_pos _ _ Hlv) as Hsp.
  assert (Hm : (0 <= speed lv * delta inp)%Q)
    by (apply Qmult_le_0_compat; [apply Qlt_le_weak; exact Hsp|exact Hd]).
  unfold scrollBackground. unfold_setters.
  set (d := (speed lv * delta inp)%Q) in *.
  destruct (Qle_bool (bgX g - d) (- cwidth cv)) eqn:E; unfold_setters.
  - apply Qle_bool_iff in E. split; [split; lra|right; reflexivity].
  - assert (Hn : ~ (bgX g - d <= - cwidth cv)%Q)
      by (intros Hle; apply Qle_bool_iff in Hle; congruence).
    split; [split; lra|left; reflexivity].
Qed.

(** X9 on the first frame after the boot. *)
Lemma background_wraps_witness :
  exists g', update demoCanvas (tick ghostDraw 0) (game bootWorld) = Some g'
    /\ (- cwidth demoCanvas < bgX g' /\ bgX g' <= 0)%Q.
Proof.
  destruct (update demoCanvas (tick ghostDraw 0) (game bootWorld))
    as [g'|] eqn:E; [|vm_compute in E; discriminate].
  exists g'. split; [reflexivity|].
  apply (background_wraps demoCanvas (tick ghostDraw 0) (game bootWorld) g'
           (mkLevel 5 2.0)).
  - reflexivity.
  - exact E.
  - vm_compute. discriminate.
  - vm_compute. reflexivity.
  - split; vm_compute; [reflexivity|discriminate].
Defined.

(** ** The spawner *)

Lemma update_spawnTimer cv inp g lv :
  let g' := afterChecks cv lv inp g in
  spawnTimer g' = spawnTimer (afterSpawn cv lv inp g)
  /\ monstersSpawned g' = monstersSpawned (afterSpawn cv lv inp g).
Proof.
  cbv zeta. unfold afterChecks.
  destruct (checks_spec (r_choice inp)
              (flashTimer (delta inp) (afterCollide cv lv inp g)))
    as ((_ & _ & C3 & _ & C5 & _) & _).
  destruct (flashTimer_core (delta inp) (afterCollide cv lv inp g))
    as (_ & _ & F3 & _ & F5 & _).
  destruct (afterCollide_ui cv lv inp g) as (_ & _ & _ & _ & A5).
  cbv zeta in *. rewrite C3, C5, F3, F5, A5.
  split; [reflexivity|].
  unfold afterCollide, collided, afterMove. unfold_setters. reflexivity.
Qed.

(** X10. A frame in the [playing] state spawns at most one monster,
    however long the frame: it spawns one, and restarts the timer at 0,
    when the quota is not reached and the timer plus the frame's
    milliseconds has reached the interval; otherwise it spawns none and
    the timer keeps the sum. *)
Theorem spawn_at_most_one cv inp g g' :
  gameState g = playing -> update cv inp g = Some g' ->
  let t := (spawnTimer g + delta inp * 1000)%Q in
  (monstersSpawned g' = monstersSpawned g + 1 /\ spawnTimer g' = 0%Q
   /\ monstersSpawned g < monstersToSpawn g
   /\ (inject_Z (spawnInterval g) <= t)%Q)
  \/ (monstersSpawned g' = monstersSpawned g /\ spawnTimer g' = t
      /\ (monstersToSpawn g <= monstersSpawned g
          \/ (t < inject_Z (spawnInterval g))%Q)).
Proof.
  intros Hp H t.
  destruct (update_playing_inv _ _ _ _ Hp H) as (lv & Hlv & ->).
  destruct (update_spawnTimer cv inp g lv) as (-> & ->).
  unfold afterSpawn, spawnStep.
  destruct (scrollBackground_fields cv (speed lv) (delta inp) g)
    as (_ & _ & S3 & S4 & S5 & _ & S7 & _).
  set (g0 := scrollBackground cv (speed lv) (delta inp) g) in *.
  cbv zeta in S3, S4, S5, S7. unfold_setters. rewrite S3, S4, S5, S7.
  fold t.
  destruct (monstersSpawned g <? monstersToSpawn g) eqn:E1; cbn [andb].
  - apply Z.ltb_lt in E1.
    destruct (Qle_bool (inject_Z (spawnInterval g)) t) eqn:E2.
    + apply Qle_bool_iff in E2. left. unfold spawnMonster. unfold_setters.
      rewrite S5. repeat split; assumption.
    + right. unfold_setters. rewrite S5.
      split; [reflexivity|]. split; [reflexivity|]. right.
      apply Qnot_le_lt. intros Hle. apply Qle_bool_iff in Hle. congruence.
  - apply Z.ltb_ge in E1. right. unfold_setters. rewrite S5.
    split; [reflexivity|]. split; [reflexivity|]. left. exact E1.
Qed.

(** X10 on a frame of ten seconds after the first choice: one monster. *)
Lemma spawn_at_most_one_witness :
  exists g',
    update demoCanvas (mkFrame 10 ghostDraw 0 0.25)
      (game (session demoCanvas 0.25 [pickLeft])) = Some g'
    /\ monstersSpawned g' = 1 /\ spawnTimer g' = 0%Q.
Proof.
  destruct (update demoCanvas (mkFrame 10 ghostDraw 0 0.25)
              (game (session demoCanvas 0.25 [pickLeft])))
    as [g'|] eqn:E; [|vm_compute in E; discriminate].
  exists g'. split; [reflexivity|].
  destruct (spawn_at_most_one demoCanvas (mkFrame 10 ghostDraw 0 0.25)
              (game (session demoCanvas 0.25 [pickLeft])) g')
    as [(H1 & H2 & _)|(_ & H2 & [H3|H3])].
  - vm_compute. reflexivity.
  - exact E.
  - split; [exact H1|exact H2].
  - vm_compute in H3. exfalso. apply H3. reflexivity.
  - vm_compute in H3. discriminate.
Defined.

(** ** Geometry *)



Lemma Qlt_bool_false_iff a b : Qlt_bool a b = false <-> (b <= a)%Q.
Proof.
  unfold Qlt_bool. rewrite negb_false_iff. apply Qle_bool_iff.
Qed.

(** X12. As long as the canvas keeps the height it had at the level
    start, the hero and every monster overlap vertically, so the
    collision test is decided by the horizontal positions alone: the
    monster's left edge is left of 70% of the hero's width and its right
    edge is right of 30% of it. *)
Theorem collision_is_horizontal cv h0 ty r m :
  canvas_ok cv ->
  Monster.y m = Monster.y (Monster.new cv ty r) ->
  Monster.height m = Monster.height (Monster.new cv ty r) ->
  let h := Hero.resetPosition cv h0 in
  hits (Hero.getBounds h) m =
    Qlt_bool (Monster.x m) (Hero.x h + Hero.width h * 0.7)
    && Qlt_bool (Hero.x h + Hero.width h * 0.3) (Monster.x m + Monster.width m).
Proof.
  intros (HW & HH) Hy Hh h. subst h.
  unfold hits, overlaps, Monster.getBounds, Hero.getBounds, Hero.resetPosition.
  cbn [bx by_ bw bh Hero.x Hero.y Hero.width Hero.height].
  rewrite Hy, Hh. cbn [Monster.new Monster.y Monster.height].
  assert (E3 : Qlt_bool (cheight cv - cheight cv * 0.12 - cheight cv * 0.1)
                 (cheight cv - cheight cv * 0.15 - cheight cv * 0.1
                  + cheight cv * 0.15) = true)
    by (apply Qlt_bool_iff; lra).
  assert (E4 : Qlt_bool (cheight cv - cheight cv * 0.15 - cheight cv * 0.1)
                 (cheight cv - cheight cv * 0.12 - cheight cv * 0.1
                  + cheight cv * 0.12) = true)
    by (apply Qlt_bool_iff; lra).
  rewrite E3, E4, !andb_true_r. reflexivity.
Qed.

(** X12 for the hero and a fresh beast of the 1600 x 800 canvas. *)
Lemma collision_is_horizontal_witness :
  let h := Hero.resetPosition demoCanvas Hero.new in
  let m := Monster.update 100 2 (Monster.new demoCanvas beast 0) in
  hits (Hero.getBounds h) m =
    Qlt_bool (Monster.x m) (Hero.x h + Hero.width h * 0.7)
    && Qlt_bool (Hero.x h + Hero.width h * 0.3) (Monster.x m + Monster.width m).
Proof.
  apply (collision_is_horizontal demoCanvas Hero.new beast 0
           (Monster.update 100 2 (Monster.new demoCanvas beast 0))).
  - split; vm_compute; reflexivity.
  - reflexivity.
  - reflexivity.
Defined.

(** X13. No tunnelling in a short frame: a monster that overlaps the
    hero vertically and is to the right of the hit box either hits the
    hero after its move or is still to the right of the hit box, provided
    the frame moves it left by less than 40% of the hero's width plus the
    monster's own width. *)
Theorem no_tunnelling hb m dt s :
  (Monster.y m < by_ hb + bh hb)%Q -> (by_ hb < Monster.y m + Monster.height m)%Q ->
  (bx hb + bw hb * 0.7 <= Monster.x m)%Q ->
  (0 <= s * dt)%Q -> (s * dt < bw hb * 0.4 + Monster.width m)%Q ->
  let m' := Monster.update dt s m in
  hits hb m' = true \/ (bx hb + bw hb * 0.7 <= Monster.x m')%Q.
Proof.
  intros Hy1 Hy2 Hx Hd0 Hd1 m'. subst m'.
  unfold hits, overlaps, Monster.getBounds, Monster.update.
  cbn [bx by_ bw bh Monster.x Monster.y Monster.width Monster.height].
  set (d := (s * dt)%Q) in *.
  destruct (Qlt_bool (Monster.x m - d) (bx hb + bw hb * 0.7)) eqn:E1.
  - left. apply Qlt_bool_iff in E1.
    assert (E2 : Qlt_bool (bx hb + bw hb * 0.3) (Monster.x m - d + Monster.width m)
                 = true) by (apply Qlt_bool_iff; lra).
    assert (E3 : Qlt_bool (Monster.y m) (by_ hb + bh hb) = true)
      by (apply Qlt_bool_iff; exact Hy1).
    assert (E4 : Qlt_bool (by_ hb) (Monster.y m + Monster.height m) = true)
      by (apply Qlt_bool_iff; exact Hy2).
    rewrite E2, E3, E4. reflexivity.
  - right. apply Qlt_bool_false_iff in E1. exact E1.
Qed.

(** X13 for the ghost of [ghostAhead] at x = 400 and a frame of 1/2 s,
    which moves it by 100 pixels: it is not at the hero yet. *)
Lemma no_tunnelling_witness :
  let hb := Hero.getBounds (Hero.resetPosition demoCanvas Hero.new) in
  let m := Monster.update 600 2 (Monster.new demoCanvas ghost 0) in
  let m' := Monster.update 50 2 m in
  hits hb m' = true \/ (bx hb + bw hb * 0.7 <= Monster.x m')%Q.
Proof.
  apply (no_tunnelling (Hero.getBounds (Hero.resetPosition demoCanvas Hero.new))
           (Monster.update 600 2 (Monster.new demoCanvas ghost 0)) 50 2);
    vm_compute; try reflexivity; discriminate.
Defined.



(** ** What only some events change *)

(** X15. The damage flash only runs in frames of the [playing] state:
    every other event (a frame in another state, a tap, a key, a resize,
    a level start among them) leaves it as it is, so a flash armed by the
    last hit of a game stays through [gameOver] and the restart. *)
Theorem damageFlash_frozen ev w w' :
  step ev w = Some w' -> isPlayingFrame ev w = false ->
  damageFlash (game w') = damageFlash (game w).
Proof.
  destruct ev as [inp|x r|key r|cw ch]; cbn [step isPlayingFrame]; intros Hs Hf.
  - destruct (update (canvas w) inp (game w)) as [g'|] eqn:E; [|discriminate].
    injection Hs as <-. cbn [game].
    destruct (update_Some_level _ _ _ _ E) as (lv & Hlv).
    assert (Hnp : gameState (game w) <> playing)
      by (intros Hp; apply GameState_eqb_eq in Hp; congruence).
    rewrite (update_paused _ lv inp _ Hlv Hnp) in E. injection E as <-.
    apply (scrollBackground_fields (canvas w) (speed lv) (delta inp) (game w)).
  - destruct (onPointerDown (canvas w) x r (game w)) as [g'|] eqn:E;
      [|discriminate].
    injection Hs as <-. cbn [game]. unfold onPointerDown, advanceLevel in E.
    destruct (gameState (game w)).
    + congruence.
    + injection E as <-. apply (handleChoiceSelection_ui _ (game w)).
    + congruence.
    + destruct (_ <? _)%nat; apply (startLevel_ui _ _ _ _ _ E).
    + apply (startLevel_ui _ _ _ _ _ E).
  - destruct (onKeyDown (canvas w) key r (game w)) as [g'|] eqn:E;
      [|discriminate].
    injection Hs as <-. cbn [game]. unfold onKeyDown, advanceLevel in E.
    destruct (gameState (game w)).
    + congruence.
    + destruct (_ || _); [|destruct (_ || _)]; injection E as <-;
        try apply (handleChoiceSelection_ui _ (game w)); reflexivity.
    + congruence.
    + destruct (_ || _); [|congruence].
      destruct (_ <? _)%nat; apply (startLevel_ui _ _ _ _ _ E).
    + destruct (_ || _); [|congruence]. apply (startLevel_ui _ _ _ _ _ E).
  - injection Hs as <-. reflexivity.
Qed.

(** X16. Frames and resizes never touch the hero, neither its position
    and size nor its weapon; a tap or a key changes the hero only when it
    starts a level or resolves a choice. *)
Theorem hero_untouched ev w w' :
  step ev w = Some w' ->
  match ev with
  | Frame _ | Resize _ _ => hero (game w') = hero (game w)
  | _ =>
      hero (game w') = hero (game w)
      \/ startsLevel ev w = true \/ gameState (game w) = choice
  end.
Proof.
  destruct ev as [inp|x r|key r|cw ch]; cbn [step startsLevel]; intros Hs.
  - destruct (update (canvas w) inp (game w)) as [g'|] eqn:E; [|discriminate].
    injection Hs as <-. cbn [game].
    destruct (update_Some_level _ _ _ _ E) as (lv & Hlv).
    apply (update_bgX _ _ _ _ _ Hlv E).
  - destruct (onPointerDown (canvas w) x r (game w)) as [g'|] eqn:E;
      [|discriminate].
    injection Hs as <-. cbn [game]. unfold onPointerDown in E.
    destruct (gameState (game w)); auto;
      left; congruence.
  - destruct (onKeyDown (canvas w) key r (game w)) as [g'|] eqn:E;
      [|discriminate].
    injection Hs as <-. cbn [game]. unfold onKeyDown in E.
    destruct (gameState (game w)); auto;
      try (left; congruence);
      destruct (_ || _); auto; left; congruence.
  - injection Hs as <-. reflexivity.
Qed.

(** X15 on the tap that restarts the game after [fatalFlash]: the flash
    armed by the fatal hit is still running in the new level. *)
Lemma damageFlash_frozen_witness :
  let w := session demoCanvas 0.25 fatalFlash in
  exists w', step pickLeft w = Some w'
    /\ gameState (game w) = gameOver /\ gameState (game w') = choice
    /\ damageFlash (game w') = damageFlash (game w)
    /\ damageFlash (game w') <> None.
Proof.
  intros w.
  destruct (step pickLeft w) as [w'|] eqn:E; [|vm_compute in E; discriminate].
  exists w'. split; [reflexivity|].
  pose proof (damageFlash_frozen pickLeft w w' E eq_refl) as H.
  split; [vm_compute; reflexivity|].
  split; [vm_compute in E; injection E as <-; vm_compute; reflexivity|].
  split; [exact H|]. rewrite H. vm_compute. discriminate.
Defined.

(** X16 on the first frame after the boot. *)
Lemma hero_untouched_witness :
  exists w', step (Frame (tick ghostDraw 0)) bootWorld = Some w'
    /\ hero (game w') = hero (game bootWorld).
Proof.
  destruct (step (Frame (tick ghostDraw 0)) bootWorld) as [w'|] eqn:E;
    [|vm_compute in E; discriminate].
  exists w'. split; [reflexivity|].
  exact (hero_untouched (Frame (tick ghostDraw 0)) bootWorld w' E).
Defined.

(** ** The display *)

(** X17. The heart icons: three are drawn, and the red ones are the
    first [hearts] of them, none when [hearts] is 0 or negative, all
    three from 3 on. *)
Theorem drawHearts_red g :
  length (drawHearts g) = 3%nat
  /\ drawHearts g =
       replicate (Z.to_nat (Z.max 0 (Z.min 3 (hearts g)))) true
       ++ replicate (3 - Z.to_nat (Z.max 0 (Z.min 3 (hearts g)))) false.
Proof.
  split; [reflexivity|]. unfold drawHearts. cbn [map].
  destruct (Z.ltb_spec 0 (hearts g)) as [H0|H0];
    destruct (Z.ltb_spec 1 (hearts g)) as [H1|H1];
    destruct (Z.ltb_spec 2 (hearts g)) as [H2|H2]; try lia.
  - replace (Z.max 0 (Z.min 3 (hearts g))) with 3 by lia. reflexivity.
  - replace (Z.max 0 (Z.min 3 (hearts g))) with 2 by lia. reflexivity.
  - replace (Z.max 0 (Z.min 3 (hearts g))) with 1 by lia. reflexivity.
  - replace (Z.max 0 (Z.min 3 (hearts g))) with 0 by lia. reflexivity.
Qed.

(** X18. In a reachable session the number shown after "Remaining: " is
    the quota minus the defeats, which is the number of monsters still to
    be spawned plus the number on the list: the clamp at 0 is never
    active. *)
Theorem drawRemaining_counts w :
  reachable w ->
  drawRemaining (game w) = monstersToSpawn (game w) - monstersDefeated (game w)
  /\ drawRemaining (game w) =
       (monstersToSpawn (game w) - monstersSpawned (game w))
       + Z.of_nat (length (monsters (game w))).
Proof.
  intros Hw. destruct (reachable_Inv w Hw). unfold drawRemaining. lia.
Qed.

(** X18 after the six frames of [ghostAhead]: five monsters on the list,
    none to spawn, "Remaining: 5". *)
Lemma drawRemaining_counts_witness :
  let w := session demoCanvas 0.25 ghostAhead in
  drawRemaining (game w) = monstersToSpawn (game w) - monstersDefeated (game w)
  /\ drawRemaining (game w) =
       (monstersToSpawn (game w) - monstersSpawned (game w))
       + Z.of_nat (length (monsters (game w))).
Proof.
  apply (drawRemaining_counts (session demoCanvas 0.25 ghostAhead)).
  apply session_reachable; vm_compute; reflexivity.
Defined.

(** X19. The end banner tells what the tap does. In a reachable session
    in [levelEnd], either the banner is "You Win!" / "Tap to play again",
    the level was the last and the tap starts level 0, or it is "Level n
    Complete" / "Tap to continue" with [n] the number of the level shown
    in the corner, and the tap starts the level shown as [n + 1]. In
    [gameOver] the banner is "Game Over" / "Tap to restart" and the tap
    starts level 0. *)
Theorem banner_matches_tap w x r :
  reachable w ->
  gameState (game w) = levelEnd \/ gameState (game w) = gameOver ->
  exists g', onPointerDown (canvas w) x r (game w) = Some g'
    /\ ((drawBanner (game w) = Some ("You Win!", "Tap to play again")
         /\ gameState (game w) = levelEnd
         /\ levelIndex (game w) = (length LEVELS - 1)%nat /\ levelIndex g' = 0%nat)
        \/ (drawBanner (game w)
              = Some ("Level " +:+ pretty (levelIndex (game w) + 1)%nat
                      +:+ " Complete", "Tap to continue")
            /\ gameState (game w) = levelEnd
            /\ drawLevelLabel g'
               = "Level " +:+ pretty (levelIndex (game w) + 1 + 1)%nat)
        \/ (drawBanner (game w) = Some ("Game Over", "Tap to restart")
            /\ gameState (game w) = gameOver /\ levelIndex g' = 0%nat)).
Proof.
  intros Hw Hs.
  destruct (inv_level _ (reachable_Inv w Hw)) as (lv & Hlv & _).
  apply lookup_lt_Some in Hlv. change (length LEVELS) with 10%nat in *.
  destruct (onPointerDown_total (canvas w) x r (game w)) as (g' & E).
  exists g'. split; [exact E|].
  unfold onPointerDown, advanceLevel in E. unfold drawBanner, drawLevelLabel.
  change (length LEVELS) with 10%nat in *.
  destruct Hs as [Hs|Hs]; rewrite Hs in *.
  - destruct (levelIndex (game w) =? 10 - 1)%nat eqn:E1.
    + apply Nat.eqb_eq in E1. left.
      replace (levelIndex (game w) <? 10 - 1)%nat with false in E
        by (symmetry; apply Nat.ltb_ge; lia).
      destruct (startLevel_fields _ _ _ _ _ E) as (lv' & _ & H1 & _).
      repeat split; assumption.
    + apply Nat.eqb_neq in E1. right. left.
      replace (levelIndex (game w) <? 10 - 1)%nat with true in E
        by (symmetry; apply Nat.ltb_lt; lia).
      destruct (startLevel_fields _ _ _ _ _ E) as (lv' & _ & H1 & _).
      rewrite H1. repeat split; reflexivity.
  - right. right.
    destruct (startLevel_fields _ _ _ _ _ E) as (lv' & _ & H1 & _).
    repeat split; assumption.
Qed.

(** X19 on the session [levelWon]: "Level 1 Complete", then level 2. *)
Lemma banner_matches_tap_witness :
  exists g',
    onPointerDown demoCanvas 5 0.75 (game (session demoCanvas 0.25 levelWon))
      = Some g'
    /\ drawBanner (game (session demoCanvas 0.25 levelWon))
       = Some ("Level 1 Complete", "Tap to continue")
    /\ drawLevelLabel g' = "Level 2".
Proof.
  destruct (banner_matches_tap (session demoCanvas 0.25 levelWon) 5 0.75)
    as (g' & E & H).
  - apply session_reachable; vm_compute; reflexivity.
  - left. vm_compute. reflexivity.
  - exists g'. split; [exact E|].
    assert (Hi : levelIndex (game (session demoCanvas 0.25 levelWon)) = 0%nat)
      by (vm_compute; reflexivity).
    assert (Hs : gameState (game (session demoCanvas 0.25 levelWon)) = levelEnd)
      by (vm_compute; reflexivity).
    revert H Hi Hs.
    generalize (game (session demoCanvas 0.25 levelWon)). intros g H Hi Hs.
    destruct H as [(_ & _ & H & _)|[(Hb & _ & Hl)|(_ & H & _)]].
    + rewrite Hi in H. vm_compute in H. discriminate.
    + rewrite Hi in Hb, Hl. split; [exact Hb|exact Hl].
    + rewrite Hs in H. discriminate.
Defined.

Lemma Qhalf (a : Q) : (a / 2 == a * (1 # 2))%Q.
Proof. unfold Qdiv. reflexivity. Qed.

(** X20. What you tap is what you get: in [choice], on a canvas of
    positive width, a tap whose x lies within the left option box equips
    the weapon whose icon is drawn in that box, and likewise for the right
    box. *)
Theorem tap_in_box_equips_its_weapon cv g left right x r :
  (0 < cwidth cv)%Q ->
  drawOptionBoxes cv g = Some (left, right) ->
  exists g', onPointerDown cv x r g = Some g'
    /\ ((boxX left <= x /\ x <= boxX left + boxSize left)%Q ->
        Hero.weapon (hero g') = boxLabel left)
    /\ ((boxX right <= x /\ x <= boxX right + boxSize right)%Q ->
        Hero.weapon (hero g') = boxLabel right).
Proof.
  intros HW Hb. unfold drawOptionBoxes in Hb. unfold onPointerDown.
  destruct (gameState g) eqn:Es; try discriminate.
  injection Hb as <- <-. cbn [boxX boxSize boxLabel].
  eexists. split; [reflexivity|].
  unfold handleChoiceSelection. rewrite Es. cbn [GameState_eqb negb].
  unfold_setters. cbn [Hero.set_weapon Hero.weapon].
  split; intros (H1 & H2).
  - assert (E : Qlt_bool x (cwidth cv / 2) = true).
    { apply Qlt_bool_iff. rewrite !Qhalf in *. lra. }
    rewrite E. reflexivity.
  - assert (E : Qlt_bool x (cwidth cv / 2) = false).
    { destruct (Qlt_bool x (cwidth cv / 2)) eqn:E; [|reflexivity].
      apply Qlt_bool_iff in E. rewrite !Qhalf in *. lra. }
    rewrite E. reflexivity.
Qed.

(** X20 right after the boot, with a tap at x = 900 in the right box. *)
Lemma tap_in_box_equips_its_weapon_witness :
  exists left right g',
    drawOptionBoxes demoCanvas (game bootWorld) = Some (left, right)
    /\ onPointerDown demoCanvas 900 0.25 (game bootWorld) = Some g'
    /\ Hero.weapon (hero g') = boxLabel right.
Proof.
  destruct (drawOptionBoxes demoCanvas (game bootWorld)) as [[left right]|] eqn:Eb;
    [|vm_compute in Eb; discriminate].
  exists left, right.
  destruct (tap_in_box_equips_its_weapon demoCanvas (game bootWorld) left right
              900 0.25) as (g' & E & _ & Hr).
  - vm_compute. reflexivity.
  - exact Eb.
  - exists g'. split; [reflexivity|]. split; [exact E|].
    apply Hr. vm_compute in Eb. injection Eb as <- <-.
    split; vm_compute; discriminate.
Defined.

(** ** The loop *)

Lemma loopDelta_positive (l t : Q) :
  (0 < l)%Q -> loopDelta (Some l) t = (((t - l) / 1000)%Q, t).
Proof.
  intros Hl. unfold loopDelta.
  destruct (Qeq_bool l 0) eqn:E; [|reflexivity].
  apply Qeq_bool_iff in E. lra.
Qed.

Lemma Qthousandth (a : Q) : (a / 1000 == a * (1 # 1000))%Q.
Proof. unfold Qdiv. reflexivity. Qed.

Lemma last_cons_default (t : Q) (ts : list Q) (l : Q) :
  List.last (t :: ts) l = List.last ts t.
Proof.
  revert t l. induction ts as [|a ts IH]; intros t l; [reflexivity|].
  change (List.last (t :: a :: ts) l) with (List.last (a :: ts) l).
  rewrite (IH a l), (IH a t). reflexivity.
Qed.

Lemma loopDeltas_from (l : Q) (ts : list Q) :
  (0 < l)%Q -> nondecreasing l ts ->
  Forall (fun d => 0 <= d)%Q (loopDeltas (Some l) ts)
  /\ (sumQ (loopDeltas (Some l) ts) * 1000 == List.last ts l - l)%Q.
Proof.
  revert l. induction ts as [|t ts IH]; intros l Hl Hnd.
  - cbn. split; [constructor|lra].
  - destruct Hnd as (Hle & Hnd). cbn [loopDeltas].
    rewrite (loopDelta_positive l t Hl).
    assert (Ht : (0 < t)%Q) by lra.
    destruct (IH t Ht Hnd) as (IH1 & IH2).
    split.
    + constructor; [rewrite Qthousandth; lra|exact IH1].
    + unfold sumQ in *. cbn [foldr].
      rewrite last_cons_default, Qthousandth. lra.
Qed.

(** X21. With positive timestamps that do not run backwards, the first
    frame gets a delta of 0, every frame gets a delta that is not
    negative, and the deltas add up to the time between the first and the
    last timestamp, in seconds: no time is lost or counted twice. *)
Theorem loop_deltas_add_up (t0 : Q) (ts : list Q) :
  (0 < t0)%Q -> nondecreasing t0 ts ->
  let ds := loopDeltas None (t0 :: ts) in
  (hd 0 ds == 0)%Q
  /\ Forall (fun d => 0 <= d)%Q ds
  /\ (sumQ ds * 1000 == List.last ts t0 - t0)%Q.
Proof.
  intros H0 Hnd ds. subst ds. cbn [loopDeltas loopDelta hd].
  destruct (loopDeltas_from t0 ts H0 Hnd) as (H1 & H2).
  split; [rewrite Qthousandth; lra|]. split.
  - constructor; [rewrite Qthousandth; lra|exact H1].
  - unfold sumQ in *. cbn [foldr]. rewrite Qthousandth. lra.
Qed.

(** X21 for frames at 16, 32 and 1032 milliseconds. *)
Lemma loop_deltas_add_up_witness :
  let ds := loopDeltas None [16; 32; 1032]%Q in
  (hd 0 ds == 0)%Q
  /\ Forall (fun d => 0 <= d)%Q ds
  /\ (sumQ ds * 1000 == 1032 - 16)%Q.
Proof.
  apply (loop_deltas_add_up 16 [32; 1032]%Q).
  - reflexivity.
  - cbn. repeat split; discriminate.
Defined.

(** ** [loadImages] *)

Lemma Loader_run_snoc assetList evs e st :
  Loader.run assetList (evs ++ [e]) st
  = Loader.onSettled assetList e.1 e.2 (Loader.run assetList evs st).
Proof. unfold Loader.run. rewrite foldl_app. reflexivity. Qed.

Lemma Loader_run_loaded assetList evs :
  Forall (fun e => is_Some (assetList !! e.1)) evs ->
  Loader.loaded (Loader.run assetList evs Loader.start) = length evs
  /\ (Loader.resolved (Loader.run assetList evs Loader.start) = true
      <-> (0 < Loader.total assetList <= length evs)%nat).
Proof.
  induction evs as [|e evs IH] using rev_ind; intros Hv.
  - cbn. split; [reflexivity|]. split; [discriminate|lia].
  - apply Forall_app in Hv. destruct Hv as (Hv & He).
    rewrite Forall_singleton in He. destruct He as (url & Hurl).
    destruct (IH Hv) as (IHl & IHr).
    rewrite Loader_run_snoc, length_app. cbn [length].
    unfold Loader.onSettled. rewrite Hurl.
    cbn [Loader.loaded Loader.resolved]. rewrite IHl.
    split; [lia|].
    rewrite orb_true_iff, IHr, Nat.eqb_eq. lia.
Qed.

(** X22. The promise of [loadImages] is resolved once as many callbacks
    have run as the asset list has keys, [load] and [error] counting
    alike, and not before; for an empty asset list it is never resolved,
    since [resolve] is only called from a callback. *)
Theorem loadImages_resolves_iff assetList evs :
  Forall (fun e => is_Some (assetList !! e.1)) evs ->
  Loader.resolved (Loader.run assetList evs Loader.start) = true
  <-> (0 < size assetList <= length evs)%nat.
Proof.
  intros Hv. apply (Loader_run_loaded assetList evs Hv).
Qed.

(** X22 for two assets, the second of which fails to load. *)
Lemma loadImages_resolves_iff_witness :
  let assetList : gmap string string :=
    {[ "hero" := "hero.png"; "sword" := "sword.png" ]} in
  Loader.resolved
    (Loader.run assetList [("hero", true); ("sword", false)] Loader.start) = true
  <-> (0 < size assetList <= 2)%nat.
Proof.
  intros assetList.
  apply (loadImages_resolves_iff assetList [("hero", true); ("sword", false)]).
  repeat constructor; vm_compute; eexists; reflexivity.
Defined.

Lemma Loader_run_images assetList evs k img :
  NoDup evs.*1 ->
  Loader.images (Loader.run assetList evs Loader.start) !! k = Some img
  <-> exists ok url, (k, ok) ∈ evs /\ assetList !! k = Some url
        /\ img = Loader.mkImage url ok.
Proof.
  revert img. induction evs as [|e evs IH] using rev_ind; intros img Hnd.
  - cbn. rewrite lookup_empty. split; [discriminate|].
    intros (ok & url & Hin & _). apply elem_of_nil in Hin. contradiction.
  - rewrite fmap_app in Hnd. apply NoDup_app in Hnd.
    destruct Hnd as (Hnd & Hdis & _).
    rewrite Loader_run_snoc. unfold Loader.onSettled.
    destruct e as [ek eo]. cbn [fst snd] in *.
    assert (Hold : forall ok, (k, ok) ∈ evs -> ek <> k).
    { intros ok Hin ->. apply (Hdis k); [|cbn; left].
      apply list_elem_of_fmap. exists (k, ok). split; [reflexivity|exact Hin]. }
    destruct (assetList !! ek) as [url|] eqn:Hurl.
    + cbn [Loader.images]. destruct (decide (ek = k)) as [->|Hne].
      * rewrite lookup_insert_eq. split.
        -- intros [= <-]. exists eo, url.
           split; [apply elem_of_app; right; left|]. split; [exact Hurl|reflexivity].
        -- intros (ok & url' & Hin & Hk & ->).
           apply elem_of_app in Hin. destruct Hin as [Hin|Hin].
           ++ exfalso. apply (Hold ok Hin). reflexivity.
           ++ apply list_elem_of_singleton in Hin. injection Hin as <-.
              congruence.
      * rewrite lookup_insert_ne by exact Hne. rewrite (IH img Hnd).
        split; intros (ok & url' & Hin & Hk & ->); exists ok, url'.
        -- split; [apply elem_of_app; left; exact Hin|]. split; [exact Hk|reflexivity].
        -- apply elem_of_app in Hin. destruct Hin as [Hin|Hin].
           ++ split; [exact Hin|]. split; [exact Hk|reflexivity].
           ++ apply list_elem_of_singleton in Hin. injection Hin as -> ->.
              contradiction.
    + rewrite (IH img Hnd).
      split; intros (ok & url' & Hin & Hk & ->); exists ok, url'.
      * split; [apply elem_of_app; left; exact Hin|]. split; [exact Hk|reflexivity].
      * apply elem_of_app in Hin. destruct Hin as [Hin|Hin].
        -- split; [exact Hin|]. split; [exact Hk|reflexivity].
        -- apply list_elem_of_singleton in Hin. injection Hin as -> ->.
           congruence.
Qed.

(** X23. When every image of the asset list fires exactly one callback,
    the promise is resolved by the last callback and by none before it,
    with an [images] object that has exactly the keys of the asset list,
    each with the image of its URL, whether it loaded or failed. *)
Theorem loadImages_complete assetList evs :
  NoDup evs.*1 ->
  (forall k, k ∈ evs.*1 <-> is_Some (assetList !! k)) ->
  assetList <> ∅ ->
  let st := Loader.run assetList evs Loader.start in
  Loader.resolved st = true
  /\ (forall k, is_Some (Loader.images st !! k) <-> is_Some (assetList !! k))
  /\ (forall k url, assetList !! k = Some url ->
      exists ok, (k, ok) ∈ evs /\ Loader.images st !! k = Some (Loader.mkImage url ok))
  /\ (forall evs1 evs2, evs = evs1 ++ evs2 -> evs2 <> [] ->
      Loader.resolved (Loader.run assetList evs1 Loader.start) = false).
Proof.
  intros Hnd Hkeys Hne st.
  assert (Hv : Forall (fun e => is_Some (assetList !! e.1)) evs).
  { apply Forall_forall. intros e He. apply Hkeys.
    apply list_elem_of_fmap. exists e. split; [reflexivity|exact He]. }
  assert (Hlen : length evs = size assetList).
  { rewrite <- (length_fmap fst evs).
    rewrite <- (size_list_to_set (C := gset string) _ Hnd).
    rewrite <- size_dom. f_equal. apply set_eq. intros k.
    rewrite elem_of_list_to_set, elem_of_dom. apply Hkeys. }
  assert (Hpos : (0 < size assetList)%nat).
  { destruct (size assetList) eqn:E; [|lia].
    apply map_size_empty_inv in E. contradiction. }
  assert (Himg : forall k url, assetList !! k = Some url ->
            exists ok, (k, ok) ∈ evs
              /\ Loader.images st !! k = Some (Loader.mkImage url ok)).
  { intros k url Hk.
    assert (Hin : k ∈ evs.*1) by (apply Hkeys; eexists; exact Hk).
    apply list_elem_of_fmap in Hin. destruct Hin as ([ek ok] & -> & He).
    exists ok. split; [exact He|].
    apply (Loader_run_images assetList evs ek _ Hnd).
    exists ok, url. split; [exact He|]. split; [exact Hk|reflexivity]. }
  split; [apply (Loader_run_loaded assetList evs Hv); unfold Loader.total; lia|].
  split; [|split; [exact Himg|]].
  - intros k. split.
    + intros (img & Hi).
      apply (Loader_run_images assetList evs k img Hnd) in Hi.
      destruct Hi as (ok & url & _ & Hk & _). eexists; exact Hk.
    + intros (url & Hk). destruct (Himg k url Hk) as (ok & _ & Hi).
      eexists; exact Hi.
  - intros evs1 evs2 -> Hne2.
    apply Forall_app in Hv. destruct Hv as (Hv1 & _).
    destruct (Loader.resolved (Loader.run assetList evs1 Loader.start)) eqn:E;
      [|reflexivity].
    apply (Loader_run_loaded assetList evs1 Hv1) in E. unfold Loader.total in E.
    rewrite length_app in Hlen. destruct evs2; [contradiction|].
    cbn [length] in Hlen. lia.
Qed.

(** X23 for two assets, the second of which fails to load. *)
Lemma loadImages_complete_witness :
  let assetList : gmap string string :=
    {[ "hero" := "hero.png"; "sword" := "sword.png" ]} in
  let st := Loader.run assetList [("hero", true); ("sword", false)] Loader.start in
  Loader.resolved st = true
  /\ Loader.images st !! "sword" = Some (Loader.mkImage "sword.png" false).
Proof.
  intros assetList st.
  destruct (loadImages_complete assetList [("hero", true); ("sword", false)])
    as (H1 & _).
  - apply (bool_decide_unpack _). vm_compute. exact I.
  - intros k. subst assetList. cbn.
    rewrite !elem_of_cons, elem_of_nil.
    split.
    + intros [->|[->|[]]]; vm_compute; eexists; reflexivity.
    + intros (url & Hk).
      destruct (decide (k = "hero")) as [->|Hh]; [left; reflexivity|].
      destruct (decide (k = "sword")) as [->|Hs]; [right; left; reflexivity|].
      rewrite lookup_insert_ne in Hk by congruence.
      rewrite lookup_singleton_ne in Hk by congruence. discriminate.
  - intros He. apply (f_equal (fun m : gmap string string => m !! "hero")) in He.
    vm_compute in He. discriminate.
  - split; [exact H1|]. vm_compute. reflexivity.
Defined.

(** ** The service worker *)

Lemma SW_activate_fold (names : list string) (acc : list (string * gmap string ServiceWorker.Response)) :
  foldl (fun acc name =>
           if decide (name <> ServiceWorker.CACHE_NAME) then ServiceWorker.caches_delete name acc else acc)
        acc names
  = filter (fun p => p.1 = ServiceWorker.CACHE_NAME \/ p.1 ∉ names) acc.
Proof.
  revert acc. induction names as [|n names IH]; intros acc.
  - cbn. symmetry. induction acc as [|p acc IHa]; [reflexivity|].
    rewrite filter_cons_True by (right; apply not_elem_of_nil).
    f_equal. exact IHa.
  - cbn [foldl]. rewrite IH. unfold ServiceWorker.caches_delete.
    destruct (decide (n <> ServiceWorker.CACHE_NAME)) as [Hn|Hn].
    + rewrite list_filter_filter. apply list_filter_iff. intros p.
      rewrite not_elem_of_cons. split.
      * intros ([Hc|Hni] & Hne); [left; exact Hc|right; split; assumption].
      * intros [Hc|(Hne & Hni)]; [|split; [right|]; assumption].
        split; [left; exact Hc|congruence].
    + apply dec_stable in Hn. subst n. apply list_filter_iff. intros p.
      rewrite not_elem_of_cons. split.
      * intros [Hc|Hni]; [left; exact Hc|].
        destruct (decide (p.1 = ServiceWorker.CACHE_NAME)); [left; assumption|].
        right. split; assumption.
      * intros [Hc|(_ & Hni)]; [left|right]; assumption.
Qed.

Lemma SW_activate_filter cs :
  ServiceWorker.activate cs = filter (fun p => p.1 = ServiceWorker.CACHE_NAME) cs.
Proof.
  unfold ServiceWorker.activate. rewrite SW_activate_fold.
  induction cs as [|p cs IH]; [reflexivity|].
  assert (Hsame : filter (fun q => q.1 = ServiceWorker.CACHE_NAME \/ q.1 ∉ (p :: cs).*1) cs
                  = filter (fun q => q.1 = ServiceWorker.CACHE_NAME \/ q.1 ∉ cs.*1) cs).
  { clear IH.
    assert (Hgen : forall l : list (string * gmap string ServiceWorker.Response),
              (forall q, q ∈ l -> q ∈ cs) ->
              filter (fun q => q.1 = ServiceWorker.CACHE_NAME \/ q.1 ∉ (p :: cs).*1) l
              = filter (fun q => q.1 = ServiceWorker.CACHE_NAME \/ q.1 ∉ cs.*1) l).
    { induction l as [|q l IHl]; intros Hsub; [reflexivity|].
      assert (Hq : q.1 ∈ cs.*1).
      { apply list_elem_of_fmap. exists q. split; [reflexivity|].
        apply Hsub. left. }
      assert (Hl : forall q', q' ∈ l -> q' ∈ cs) by (intros q' Hq'; apply Hsub; right; exact Hq').
      destruct (decide (q.1 = ServiceWorker.CACHE_NAME)) as [Hc|Hc].
      - rewrite !filter_cons_True by (left; exact Hc). f_equal. apply IHl, Hl.
      - rewrite !filter_cons_False; [apply IHl, Hl| |].
        + intros [?|Hni]; [contradiction|]. apply Hni. exact Hq.
        + intros [?|Hni]; [contradiction|]. apply Hni. cbn. right. exact Hq. }
    apply Hgen. auto. }
  destruct (decide (p.1 = ServiceWorker.CACHE_NAME)) as [Hc|Hc].
  - rewrite !filter_cons_True by (try left; exact Hc). f_equal.
    rewrite Hsame. exact IH.
  - rewrite !filter_cons_False; [rewrite Hsame; exact IH|exact Hc|].
    intros [?|Hni]; [contradiction|]. apply Hni. cbn. left.
Qed.

(** X24. [activate] deletes every cache whose name is not [CACHE_NAME]
    and leaves the cache of that name as it is: what remains are the
    entries of the storage named [CACHE_NAME], unchanged and in their
    order; activating a second time changes nothing. *)
Theorem activate_purges_other_caches (cs : list (string * gmap string ServiceWorker.Response)) :
  Forall (fun p => p.1 = ServiceWorker.CACHE_NAME) (ServiceWorker.activate cs)
  /\ (forall p, p ∈ ServiceWorker.activate cs <-> p ∈ cs /\ p.1 = ServiceWorker.CACHE_NAME)
  /\ ServiceWorker.activate (ServiceWorker.activate cs) = ServiceWorker.activate cs.
Proof.
  rewrite !SW_activate_filter. split; [|split].
  - apply Forall_forall. intros p Hp. apply list_elem_of_filter in Hp. tauto.
  - intros p. rewrite list_elem_of_filter. tauto.
  - rewrite list_filter_filter. apply list_filter_iff. intros p. tauto.
Qed.

Lemma SW_fetchAll_Some net urls entries :
  ServiceWorker.fetchAll net urls = Some entries ->
  entries.*1 = urls
  /\ forall url r, (url, r) ∈ entries -> net url = Some r /\ ServiceWorker.ok r = true.
Proof.
  unfold ServiceWorker.fetchAll. revert entries.
  induction urls as [|u urls IH]; intros entries H.
  - cbn in H. injection H as <-. split; [reflexivity|].
    intros url r Hin. apply elem_of_nil in Hin. contradiction.
  - cbn in H. destruct (net u) as [r0|] eqn:Hu; [|discriminate]. cbn in H.
    destruct (ServiceWorker.ok r0) eqn:Hok; [|discriminate]. cbn in H.
    destruct (mapM _ urls) as [rest|] eqn:Hrest; [|discriminate].
    cbn in H. injection H as <-.
    destruct (IH rest eq_refl) as (IH1 & IH2).
    split; [cbn; f_equal; exact IH1|].
    intros url r Hin. apply elem_of_cons in Hin. destruct Hin as [Heq|Hin].
    + injection Heq as -> ->. split; assumption.
    + apply IH2. exact Hin.
Qed.

Lemma SW_fetchAll_None net urls :
  ServiceWorker.fetchAll net urls = None ->
  exists url, url ∈ urls
    /\ (net url = None \/ exists r, net url = Some r /\ ServiceWorker.ok r = false).
Proof.
  unfold ServiceWorker.fetchAll. induction urls as [|u urls IH]; intros H.
  - discriminate.
  - cbn in H. destruct (net u) as [r0|] eqn:Hu.
    + cbn in H. destruct (ServiceWorker.ok r0) eqn:Hok.
      * cbn in H. destruct (mapM _ urls) as [rest|] eqn:Hrest; [discriminate|].
        destruct (IH eq_refl) as (url & Hin & Hbad).
        exists url. split; [right; exact Hin|exact Hbad].
      * exists u. split; [left|]. right. exists r0. split; assumption.
    + exists u. split; [left|]. left. exact Hu.
Qed.

Lemma SW_open_has_cache (cs : list (string * gmap string ServiceWorker.Response)) :
  ServiceWorker.CACHE_NAME ∈ (ServiceWorker.caches_open ServiceWorker.CACHE_NAME cs).*1.
Proof.
  unfold ServiceWorker.caches_open.
  destruct (decide (ServiceWorker.CACHE_NAME ∈ cs.*1)) as [Hin|_]; [exact Hin|].
  rewrite fmap_app. apply elem_of_app. right. cbn. left.
Qed.

(** After a successful [addAll] and the purge, a lookup finds the entry
    that [addAll] has put. *)
Lemma SW_match_installed entries url r (l : list (string * gmap string ServiceWorker.Response)) :
  ServiceWorker.CACHE_NAME ∈ l.*1 ->
  (list_to_map entries : gmap string ServiceWorker.Response) !! url = Some r ->
  ServiceWorker.caches_match url
    (filter (fun p => p.1 = ServiceWorker.CACHE_NAME) (ServiceWorker.putAll ServiceWorker.CACHE_NAME entries l))
  = Some r.
Proof.
  intros Hin Hr. induction l as [|[n c] l IH].
  - apply elem_of_nil in Hin. contradiction.
  - unfold ServiceWorker.putAll. cbn [map fst snd].
    fold (ServiceWorker.putAll ServiceWorker.CACHE_NAME entries l).
    destruct (decide (n = ServiceWorker.CACHE_NAME)) as [->|Hne].
    + rewrite filter_cons_True by reflexivity. cbn [ServiceWorker.caches_match].
      rewrite (lookup_union_Some_l _ _ _ _ Hr). reflexivity.
    + rewrite filter_cons_False by exact Hne. apply IH.
      cbn in Hin. apply elem_of_cons in Hin.
      destruct Hin as [Heq|Hin]; [congruence|exact Hin].
Qed.

(** X25. When the network answers every file of [FILES_TO_CACHE] with an
    [ok] response, [install] succeeds, and after [activate] each of these
    files is answered with the response fetched at install time, whatever
    the network does then: offline, or with a newer version, the cached
    response is served; and this holds whatever caches the storage held
    before. *)
Theorem precached_files_served_offline (net net' : ServiceWorker.Network)
    (cs : list (string * gmap string ServiceWorker.Response)) url :
  (forall u, u ∈ ServiceWorker.FILES_TO_CACHE ->
     exists r, net u = Some r /\ ServiceWorker.ok r = true) ->
  url ∈ ServiceWorker.FILES_TO_CACHE ->
  (ServiceWorker.install net cs).2 = true
  /\ exists r, net url = Some r
       /\ ServiceWorker.onFetch net' url (ServiceWorker.activate (ServiceWorker.install net cs).1) = Some r.
Proof.
  intros Hall Hurl. unfold ServiceWorker.install.
  destruct (ServiceWorker.fetchAll net ServiceWorker.FILES_TO_CACHE) as [entries|] eqn:Ef.
  - cbn [fst snd]. split; [reflexivity|].
    destruct (SW_fetchAll_Some _ _ _ Ef) as (Hkeys & Hent).
    assert (Hin : url ∈ entries.*1) by (rewrite Hkeys; exact Hurl).
    apply list_elem_of_fmap in Hin. destruct Hin as ([u r] & -> & Hin).
    cbn [fst]. destruct (Hent u r Hin) as (Hnet & _).
    exists r. split; [exact Hnet|].
    unfold ServiceWorker.onFetch. rewrite SW_activate_filter.
    rewrite (SW_match_installed entries u r); [reflexivity| |].
    + apply SW_open_has_cache.
    + apply elem_of_list_to_map_1'; [|exact Hin].
      intros r' Hin'. destruct (Hent u r' Hin') as (Hnet' & _). congruence.
  - exfalso. destruct (SW_fetchAll_None _ _ Ef) as (u & Hu & Hbad).
    destruct (Hall u Hu) as (r & Hr & Hok).
    destruct Hbad as [Hn|(r' & Hr' & Hok')]; congruence.
Qed.

(** X25 with a stale cache of another version in the storage and the
    network gone after the install. *)
Lemma precached_files_served_offline_witness :
  let net : ServiceWorker.Network := fun u => Some (ServiceWorker.mkResponse true u) in
  let offline : ServiceWorker.Network := fun _ => None in
  let cs : list (string * gmap string ServiceWorker.Response) :=
    [("run-choose-root-cache-v0", {[ "/game.js" := ServiceWorker.mkResponse true "old" ]})] in
  (ServiceWorker.install net cs).2 = true
  /\ exists r, net "/game.js" = Some r
       /\ ServiceWorker.onFetch offline "/game.js" (ServiceWorker.activate (ServiceWorker.install net cs).1) = Some r.
Proof.
  intros net offline cs.
  apply (precached_files_served_offline net offline cs "/game.js").
  - intros u _. exists (ServiceWorker.mkResponse true u). split; reflexivity.
  - apply (bool_decide_unpack _). vm_compute. exact I.
Defined.
